(** * django-impersonate: the admin module [impersonate/admin.py]

    A shallow embedding of the admin customisations of the impersonation
    log (the two list filters, the friendly label and the [ModelAdmin]
    descriptor) and the properties its specification states about them.

    Layout: the data model, the services of the host (ORM query sets, the
    Python runtime), the embedding of [admin.py] function by function, the
    notions the specification speaks in, and then the theorems. *)

From Stdlib Require Import Ascii.
From stdpp Require Import base list strings gmap sorting.

Open Scope Z_scope.

(** ** Data model *)

(** The integers a key column holds: the signed 64-bit integers. *)
Definition key_range (n : Z) : bool := bool_decide (- 2 ^ 63 ≤ n < 2 ^ 63).

(** Modelled from the spec: the user model ([settings.AUTH_USER_MODEL]) is
    declared outside [admin.py].  The module reads the primary key [i.id],
    the [username] attribute, the accessor [get_full_name()] and, through
    the ordering [impersonator__first_name], the column [first_name].  A
    user is a row of the database, so its key is one the key column
    holds. *)
Record User := {
  id : Z;
  username : string;
  first_name : string;
  get_full_name : string;
  id_range : Is_true (key_range id)
}.

(** Modelled from the spec: [impersonate.models.ImpersonationLog] is
    declared outside [admin.py].  A log row carries the two users, the
    session key, the start of the session and the optional end of the
    session; times are seconds on some clock.  The column [duration] is
    derived by the model from the two times and is only named here. *)
Record ImpersonationLog := {
  impersonator : User;
  impersonating : User;
  session_key : string;
  session_started_at : Z;
  session_ended_at : option Z
}.

(** The raw foreign-key column behind [impersonator]. *)
Definition impersonator_id (q : ImpersonationLog) : Z := id (impersonator q).

#[global] Instance User_eq_dec : EqDecision User.
Proof.
  intros [i1 u1 f1 g1 r1] [i2 u2 f2 g2 r2].
  destruct (decide (i1 = i2)) as [->|]; [|right; congruence].
  destruct (decide (u1 = u2)) as [->|]; [|right; congruence].
  destruct (decide (f1 = f2)) as [->|]; [|right; congruence].
  destruct (decide (g1 = g2)) as [->|]; [|right; congruence].
  left. f_equal. apply proof_irrel.
Defined.

#[global] Instance ImpersonationLog_eq_dec : EqDecision ImpersonationLog.
Proof. solve_decision. Defined.

(** ** The host: query sets *)

(** A query set is the sequence of rows it evaluates to. *)
Definition QuerySet := list ImpersonationLog.

(** What a call into the query layer, or the evaluation of the query set
    it returns, may raise. *)
Inductive exn := ValueError | OverflowError.

Inductive result (A : Type) :=
  | Ok (a : A)
  | Raise (e : exn).
Arguments Ok {A} a.
Arguments Raise {A} e.

(** [queryset.filter(session_ended_at__isnull=b)]. *)
Definition filter_session_ended_at__isnull (b : bool) (queryset : QuerySet)
  : QuerySet :=
  filter (λ q, bool_decide (session_ended_at q = None) = b) queryset.

(** The value [self.value()] of a list filter: the query-string parameter
    of the filter, [None] when the parameter is absent. *)
Definition value := option string.

(** Python's [v == s] for a filter value and a string literal. *)
Definition value_eq (v : value) (s : string) : bool := bool_decide (v = Some s).

(** ** [admin.py] *)

(** [friendly_name(user)]. *)
Definition friendly_name (user : User) : string :=
  if negb (String.eqb (get_full_name user) EmptyString) then get_full_name user
  else username user.

Module SessionStateFilter.

Definition title : string := "session state".
Definition parameter_name : string := "session".

Definition lookups : list (string * string) :=
  [("incomplete", "Incomplete"); ("complete", "Complete")].

Definition queryset (self_value : value) (queryset : QuerySet) : QuerySet :=
  if value_eq self_value "incomplete" then
    filter_session_ended_at__isnull true queryset
  else if value_eq self_value "complete" then
    filter_session_ended_at__isnull false queryset
  else queryset.

End SessionStateFilter.

(** ** The host: the Python runtime *)

(** What the language leaves to the interpreter and [admin.py] relies on.

    [set_iter l] is the order in which [for i in set(l)] visits the members
    of the set built from the list [l] of model instances; the language
    fixes the members and not the order.

    [int s] is the conversion [int(s)] of a string that the query layer
    applies to a value compared with an integer column; [None] stands for
    the [ValueError] it raises.  The literals it accepts differ between
    interpreter versions.

    [out_of_range] is what the database does with an integer outside
    the range of its keys when a query that compares a key with it is
    evaluated: it raises the given error (SQLite: [OverflowError]), or,
    for [None], it finds no row. *)
Class Runtime := {
  set_iter : list User → list User;
  int : string → option Z;
  out_of_range : option exn
}.

(** Model instances hash and compare by primary key ([Model.__hash__],
    [Model.__eq__]), so a set holds one instance per key, taken from the
    list it was built from. *)
Class SetLaws (R : Runtime) : Prop := {
  set_iter_NoDup l : NoDup (id <$> set_iter l);
  set_iter_elem l u : u ∈ set_iter l → u ∈ l;
  set_iter_key l u : u ∈ l → id u ∈ id <$> set_iter l
}.

(** [len(set(l))]. *)
Definition set_len {R : Runtime} (l : list User) : Z := Z.of_nat (length (set_iter l)).

(** ** The host: query sets, continued *)

(** The order of [order_by('impersonator__first_name')], under a binary
    collation of the column. *)
Definition first_name_le (q1 q2 : ImpersonationLog) : Prop :=
  String.leb (first_name (impersonator q1)) (first_name (impersonator q2)).

#[global] Instance first_name_le_dec : RelDecision first_name_le.
Proof. intros q1 q2. unfold first_name_le. apply _. Defined.

(** A row put before the first row of a sorted query set that does not
    come before it. *)
Fixpoint insert_by_first_name (q : ImpersonationLog) (queryset : QuerySet)
  : QuerySet :=
  match queryset with
  | [] => [q]
  | q' :: queryset' =>
      if decide (first_name_le q q') then q :: queryset
      else q' :: insert_by_first_name q queryset'
  end.

(** [queryset.order_by('impersonator__first_name')]; rows with the same
    first name keep the order they have in the query set. *)
Definition order_by_impersonator__first_name (queryset : QuerySet) : QuerySet :=
  foldr insert_by_first_name [] queryset.

(** [queryset.filter(impersonator_id=v)] for a string [v], evaluated: the
    value is converted to the type of the key column first, and a string
    that is not an integer makes the call raise; an integer outside the
    range of the keys is left to the database when the rows are fetched. *)
Definition filter_impersonator_id {R : Runtime} (v : string) (queryset : QuerySet)
  : result QuerySet :=
  match int v with
  | Some n =>
      if key_range n then Ok (filter (λ q, impersonator_id q = n) queryset)
      else from_option Raise (Ok []) out_of_range
  | None => Raise ValueError
  end.

(** ** [admin.py], continued *)

(** Modelled from the spec: [django.conf.settings], of which [admin.py]
    reads the one attribute [IMPERSONATE_MAX_FILTER_SIZE], [None] when the
    project does not set it. *)
Record Settings := {
  IMPERSONATE_MAX_FILTER_SIZE : option Z
}.

(** [MAX_FILTER_SIZE = getattr(settings, 'IMPERSONATE_MAX_FILTER_SIZE', 100)]. *)
Definition MAX_FILTER_SIZE (settings : Settings) : Z :=
  default 100 (IMPERSONATE_MAX_FILTER_SIZE settings).

(** A record handed to [logger]. *)
Inductive LogRecord := Debug (msg : string) (args : list Z).

Module ImpersonatorFilter.

Definition title : string := "impersonator".
Definition parameter_name : string := "impersonator".

(** The local [impersonators] of [lookups]: the members of
    [set([q.impersonator for q in qs])] in the order of the [for] loop;
    [model_admin_queryset] is [model_admin.get_queryset(request)]. *)
Definition impersonators {R : Runtime} (model_admin_queryset : QuerySet)
  : list User :=
  let qs := order_by_impersonator__first_name model_admin_queryset in
  set_iter (impersonator <$> qs).

(** The list the generator [lookups] yields. *)
Definition lookups {R : Runtime} (settings : Settings)
    (model_admin_queryset : QuerySet) : list (Z * string) :=
  let impersonators := impersonators model_admin_queryset in
  if bool_decide (MAX_FILTER_SIZE settings < Z.of_nat (length impersonators))
  then []
  else (λ i, (id i, friendly_name i)) <$> impersonators.

(** What [lookups] hands to [logger.debug] on the way. *)
Definition lookups_log {R : Runtime} (settings : Settings)
    (model_admin_queryset : QuerySet) : list LogRecord :=
  let impersonators := impersonators model_admin_queryset in
  if bool_decide (MAX_FILTER_SIZE settings < Z.of_nat (length impersonators))
  then [Debug "Hiding admin list filter as number of impersonators exceeds MAX_FILTER_SIZE [%s]"
          [Z.of_nat (length impersonators); MAX_FILTER_SIZE settings]]
  else [].

Definition queryset {R : Runtime} (self_value : value) (queryset : QuerySet)
  : result QuerySet :=
  match self_value with
  | None => Ok queryset
  | Some v =>
      if String.eqb v EmptyString then Ok queryset
      else filter_impersonator_id v queryset
  end.

End ImpersonatorFilter.

Module ImpersonationLogAdmin.

(** An entry of [list_filter]: a filter class or the name of a field. *)
Inductive list_filter_entry :=
  | SessionStateFilter
  | ImpersonatorFilter
  | Field (name : string).

Definition list_display : list string :=
  ["impersonator_"; "impersonating_"; "session_key"; "session_started_at";
   "duration"].

Definition readonly_fields : list string :=
  ["impersonator"; "impersonating"; "session_key"; "session_started_at";
   "session_ended_at"; "duration"].

Definition list_filter : list list_filter_entry :=
  [SessionStateFilter; ImpersonatorFilter; Field "session_started_at"].

Definition impersonator_ (obj : ImpersonationLog) : string :=
  friendly_name (impersonator obj).

Definition impersonating_ (obj : ImpersonationLog) : string :=
  friendly_name (impersonating obj).

End ImpersonationLogAdmin.

(** ** Two hosts *)

(** [int(s)] as CPython 3.11 computes it for a [str].  A string of the
    model is the UTF-8 text of the [str]. *)
Module pyint.

(** The code points of a UTF-8 text; [U+FFFD] stands for a byte that
    starts no well-formed sequence. *)
Definition cont (b : Z) : bool := bool_decide (128 ≤ b < 192).

Fixpoint decode (bs : list Z) : list Z :=
  match bs with
  | [] => []
  | b :: bs1 =>
      if bool_decide (b < 128) then b :: decode bs1
      else
        match bs1 with
        | [] => [65533]
        | c1 :: bs2 =>
            if bool_decide (194 ≤ b < 224) && cont c1 then
              ((b - 192) * 64 + (c1 - 128)) :: decode bs2
            else
              match bs2 with
              | [] => 65533 :: decode bs1
              | c2 :: bs3 =>
                  let cp3 := (b - 224) * 4096 + (c1 - 128) * 64 + (c2 - 128) in
                  if bool_decide (224 ≤ b < 240) && cont c1 && cont c2
                     && bool_decide (2048 ≤ cp3)
                     && negb (bool_decide (55296 ≤ cp3 ≤ 57343))
                  then cp3 :: decode bs3
                  else
                    match bs3 with
                    | [] => 65533 :: decode bs1
                    | c3 :: bs4 =>
                        let cp4 := (b - 240) * 262144 + (c1 - 128) * 4096
                                   + (c2 - 128) * 64 + (c3 - 128) in
                        if bool_decide (240 ≤ b < 245) && cont c1 && cont c2
                           && cont c3 && bool_decide (65536 ≤ cp4 ≤ 1114111)
                        then cp4 :: decode bs4
                        else 65533 :: decode bs1
                    end
              end
        end
  end.

(** [Py_UNICODE_ISSPACE] above the ASCII range. *)
Definition Py_UNICODE_ISSPACE (ch : Z) : bool :=
  bool_decide (ch ∈ [133; 160; 5760; 8232; 8233; 8239; 8287; 12288])
  || bool_decide (8192 ≤ ch ≤ 8202).

(** The digits zero of the decimal digits of Unicode 14; the nine after
    each are its digits one to nine. *)
Definition zeros : list Z :=
  [48; 1632; 1776; 1984; 2406; 2534; 2662; 2790; 2918; 3046; 3174; 3302;
   3430; 3558; 3664; 3792; 3872; 4160; 4240; 6112; 6160; 6470; 6608; 6784;
   6800; 6992; 7088; 7232; 7248; 42528; 43216; 43264; 43472; 43504; 43600;
   44016; 65296; 66720; 68912; 69734; 69872; 69942; 70096; 70384; 70736;
   70864; 71248; 71360; 71472; 71904; 72016; 72784; 73040; 73120; 92768;
   92864; 93008; 120782; 120792; 120802; 120812; 120822; 123200; 123632;
   125264; 130032].

(** [Py_UNICODE_TODECIMAL]. *)
Definition Py_UNICODE_TODECIMAL (ch : Z) : option Z :=
  (λ found, ch - found.2) <$> list_find (λ zero, zero ≤ ch < zero + 10) zeros.

(** [_PyUnicode_TransformDecimalAndSpaceToASCII] on a text that is not
    ASCII: spaces become the blank, decimal digits the ASCII digits, and
    the text ends in a question mark at the first other character above
    the ASCII range. *)
Fixpoint transform (chs : list Z) : list Z :=
  match chs with
  | [] => []
  | ch :: chs' =>
      if bool_decide (ch < 127) then ch :: transform chs'
      else if Py_UNICODE_ISSPACE ch then 32 :: transform chs'
      else match Py_UNICODE_TODECIMAL ch with
           | Some d => (48 + d) :: transform chs'
           | None => [63]
           end
  end.

Definition Py_ISSPACE (c : Z) : bool := bool_decide (9 ≤ c ≤ 13 ∨ c = 32).

Definition digit (c : Z) : option Z :=
  if bool_decide (48 ≤ c ≤ 57) then Some (c - 48) else None.

Fixpoint lstrip (cs : list Z) : list Z :=
  match cs with
  | c :: cs' => if Py_ISSPACE c then lstrip cs' else cs
  | [] => []
  end.

Definition strip (cs : list Z) : list Z :=
  reverse (lstrip (reverse (lstrip cs))).

(** [after_digit] tells whether the last character read was a digit. *)
Fixpoint digits (acc : Z) (after_digit : bool) (cs : list Z) : option Z :=
  match cs with
  | [] => if after_digit then Some acc else None
  | c :: cs' =>
      if bool_decide (c = 95) then
        if after_digit then digits acc false cs' else None
      else
        match digit c with
        | Some d => digits (10 * acc + d) true cs'
        | None => None
        end
  end.

(** The limit of [sys.int_max_str_digits]. *)
Definition MAX_STR_DIGITS : Z := 4300.

(** The digits of a literal, under the limit on their number. *)
Definition literal (cs : list Z) : option Z :=
  if bool_decide (Z.of_nat (length (filter (λ c, is_Some (digit c)) cs))
                  ≤ MAX_STR_DIGITS)
  then digits 0 false cs else None.

(** [PyLong_FromString] in base ten: white space around the literal, one
    sign, decimal digits, single underscores between digits. *)
Definition PyLong_FromString (cs : list Z) : option Z :=
  match strip cs with
  | c :: cs' =>
      if bool_decide (c = 43) then literal cs'
      else if bool_decide (c = 45) then Z.opp <$> literal cs'
      else literal (c :: cs')
  | [] => None
  end.

Definition bytes (s : string) : list Z :=
  (λ c, Z.of_nat (nat_of_ascii c)) <$> String.list_ascii_of_string s.

Definition int (s : string) : option Z :=
  let bs := bytes s in
  PyLong_FromString
    (if forallb (λ b, bool_decide (b < 128)) bs then bs
     else transform (decode bs)).

End pyint.

(** The decimal text of an integer, which [str(n)] gives and the admin
    puts into the query string for the option of the key [n]. *)
Fixpoint decimal_digits (fuel : nat) (n : Z) : list Z :=
  match fuel with
  | O => []
  | S fuel' =>
      if bool_decide (n < 10) then [n]
      else decimal_digits fuel' (n `div` 10) ++ [n `mod` 10]
  end.

Definition decimal_chars (n : Z) : list Z :=
  let ds := (λ d, 48 + d)
              <$> decimal_digits (S (Z.to_nat (Z.log2 (Z.abs n)))) (Z.abs n) in
  if bool_decide (n < 0) then 45 :: ds else ds.

Definition decimal (n : Z) : string :=
  String.string_of_list_ascii
    ((λ c, ascii_of_nat (Z.to_nat c)) <$> decimal_chars n).

(** The set of CPython 3.11 ([Objects/setobject.c]): an open-addressing hash
    table, visited by the [for] loop from the first slot to the last.  The
    table never loses a key here, so [fill] and [used] agree. *)
Module cpython.

Definition LINEAR_PROBES : Z := 9.
Definition PERTURB_SHIFT : Z := 5.
Definition PySet_MINSIZE : Z := 8.

(** [hash(n)] of an integer, then [Model.__hash__]. *)
Definition hash_int (n : Z) : Z :=
  let h := Z.sgn n * (Z.abs n `mod` (2 ^ 61 - 1)) in
  if bool_decide (h = -1) then -2 else h.

Definition hash (u : User) : Z := hash_int (id u).

(** The cast [(size_t)hash]. *)
Definition size_t (h : Z) : Z := h `mod` 2 ^ 64.

Record setobject := {
  table : list (option User);
  fill : Z
}.

Definition mask (table : list (option User)) : Z := Z.of_nat (length table) - 1.

Inductive slot :=
  | Unused (i : nat)
  | Active (i : nat)
  | Miss.

(** The entries [i], [i+1], ..., [i+n] of the table, up to the first
    unused one or, when [cmp] is set, the first one that holds [key]. *)
Fixpoint scan (cmp : bool) (table : list (option User)) (key : User)
    (i n : nat) : slot :=
  match table !! i with
  | None => Miss
  | Some None => Unused i
  | Some (Some startkey) =>
      if cmp && bool_decide (hash startkey = hash key)
             && bool_decide (id startkey = id key)
      then Active i
      else match n with
           | O => Miss
           | S n' => scan cmp table key (S i) n'
           end
  end.

(** The probe loop, given [rounds] turns of its [while (1)].  The next
    index is computed in [size_t]; under the mask of a table of less than
    [2 ^ 64] slots the wrap of the sum does not show, and it is left out. *)
Fixpoint probe (rounds : nat) (cmp : bool) (table : list (option User))
    (key : User) (i perturb : Z) : slot :=
  match rounds with
  | O => Miss
  | S rounds' =>
      let n := if bool_decide (i + LINEAR_PROBES ≤ mask table)
               then LINEAR_PROBES else 0 in
      match scan cmp table key (Z.to_nat i) (Z.to_nat n) with
      | Miss =>
          let perturb := perturb ≫ PERTURB_SHIFT in
          probe rounds' cmp table key
            (Z.land (i * 5 + 1 + perturb) (mask table)) perturb
      | s => s
      end
  end.

(** Turns after which [perturb] is spent and the recurrence has walked
    the whole table. *)
Definition rounds (table : list (option User)) : nat := (13 + length table)%nat.

Definition lookkey (cmp : bool) (table : list (option User)) (key : User)
  : slot :=
  probe (rounds table) cmp table key
    (Z.land (size_t (hash key)) (mask table)) (size_t (hash key)).

Definition set_insert_clean (table : list (option User)) (key : User)
  : list (option User) :=
  match lookkey false table key with
  | Unused i => <[i := Some key]> table
  | _ => table
  end.

(** The smallest table size above [minused]. *)
Fixpoint newsize (turns : nat) (size minused : Z) : Z :=
  match turns with
  | O => size
  | S turns' =>
      if bool_decide (size ≤ minused) then newsize turns' (size ≪ 1) minused
      else size
  end.

Definition set_table_resize (so : setobject) (minused : Z) : setobject :=
  let size := newsize (Z.to_nat minused) PySet_MINSIZE minused in
  let newtable := replicate (Z.to_nat size) None in
  {| table := foldl (λ t entry, from_option (set_insert_clean t) t entry)
                newtable (table so);
     fill := fill so |}.

Definition set_add_entry (so : setobject) (key : User) : setobject :=
  match lookkey true (table so) key with
  | Unused i =>
      let so' := {| table := <[i := Some key]> (table so);
                    fill := fill so + 1 |} in
      if bool_decide (fill so' * 5 < mask (table so') * 3) then so'
      else set_table_resize so'
             (if bool_decide (50000 < fill so') then fill so' * 2
              else fill so' * 4)
  | _ => so
  end.

Definition set_new : setobject :=
  {| table := replicate (Z.to_nat PySet_MINSIZE) None; fill := 0 |}.

(** [set(l)]. *)
Definition set_of_list (l : list User) : setobject := foldl set_add_entry set_new l.

(** The keys of a table, from the first slot to the last. *)
Definition entries (table : list (option User)) : list User :=
  omap (λ entry, entry) table.

(** [list(set(l))]. *)
Definition set_iter (l : list User) : list User :=
  entries (table (set_of_list l)).

End cpython.

(** CPython over SQLite. *)
#[global] Instance CPython : Runtime := {|
  set_iter := cpython.set_iter;
  int := pyint.int;
  out_of_range := Some OverflowError
|}.

(** A set that keeps the order of insertion, as PyPy's does. *)
Module pypy.

(** [s.add(u)]. *)
Definition set_add (s : list User) (u : User) : list User :=
  if bool_decide (id u ∈ id <$> s) then s else s ++ [u].

Definition set_iter (l : list User) : list User := foldl set_add [] l.

End pypy.

(** PyPy over a database that answers an integer out of range with no
    row. *)
Definition PyPy : Runtime := {|
  set_iter := pypy.set_iter;
  int := pyint.int;
  out_of_range := None
|}.

(** The conversion reads the decimal text of a key as that key. *)
Class IntLaws (R : Runtime) : Prop := {
  int_decimal n : key_range n = true → int (decimal n) = Some n
}.

(** ** The notions of the specification *)

(** A session is incomplete while its end has not been recorded. *)
Definition incomplete (q : ImpersonationLog) : Prop := session_ended_at q = None.

(** The identities that occur as impersonator in a collection, and their
    number. *)
Definition distinct_impersonators (queryset : QuerySet) : gset Z :=
  list_to_set (impersonator_id <$> queryset).

Definition distinct_count (queryset : QuerySet) : nat :=
  size (distinct_impersonators queryset).

(** The option the impersonator filter shows for a user. *)
Definition option_of (i : User) : Z * string := (id i, friendly_name i).

(** Users listed in the order of their first names. *)
Definition by_first_name (u1 u2 : User) : Prop :=
  String.leb (first_name u1) (first_name u2).

(** The claim that a selected value narrows a collection to the rows whose
    impersonator matches it. *)
Definition narrows_to_matching {R : Runtime} (v : string) (queryset : QuerySet)
    (res : result QuerySet) : Prop :=
  res = Ok (filter (λ q, int v = Some (impersonator_id q)) queryset).

(** A function applied under a result of the query layer. *)
Definition result_map {A B : Type} (f : A → B) (r : result A) : result B :=
  match r with
  | Ok a => Ok (f a)
  | Raise e => Raise e
  end.

(** Rows that name the same impersonator carry the same user, as the rows
    of one query over one table of users do. *)
Definition coherent (queryset : QuerySet) : Prop :=
  ∀ q q', q ∈ queryset → q' ∈ queryset →
    impersonator_id q = impersonator_id q' → impersonator q = impersonator q'.

(** The rows an option of the impersonator filter stands for. *)
Definition rows_of (queryset : QuerySet) (o : Z * string) : QuerySet :=
  filter (λ q, impersonator_id q = o.1) queryset.

(** ** The probe sequence of the hash table *)

(** The recurrence of the probe loop once [perturb] is spent, on a table
    of [2 ^ k] slots. *)
Definition lcg (k : Z) (i : Z) : Z := (5 * i + 1) `mod` 2 ^ k.

(** One turn of the probe loop on the pair of the index and [perturb]. *)
Definition next (table : list (option User)) (s : Z * Z) : Z * Z :=
  let perturb := s.2 ≫ cpython.PERTURB_SHIFT in
  (Z.land (s.1 * 5 + 1 + perturb) (cpython.mask table), perturb).

(** The table has a power of two as its number of slots. *)
Definition pow2 (table : list (option User)) : Prop :=
  ∃ k : nat, Z.of_nat (length table) = 2 ^ Z.of_nat k.

(** Every key of the table is found by the probe for it. *)
Definition reach (table : list (option User)) : Prop :=
  ∀ (j : nat) (u : User),
    table !! j = Some (Some u) → cpython.lookkey true table u = cpython.Active j.

(** What [set_add_entry] keeps of a set object: the shape of the table,
    one key per identity, the count of the keys and the load below three
    fifths. *)
Definition inv (so : cpython.setobject) : Prop :=
  pow2 (cpython.table so) ∧ reach (cpython.table so)
  ∧ NoDup (id <$> cpython.entries (cpython.table so))
  ∧ cpython.fill so = Z.of_nat (length (cpython.entries (cpython.table so)))
  ∧ cpython.fill so * 5 < cpython.mask (cpython.table so) * 3.

(** ** Sample data *)

Definition settings_default : Settings := {| IMPERSONATE_MAX_FILTER_SIZE := None |}.

Definition settings_cap (n : Z) : Settings := {| IMPERSONATE_MAX_FILTER_SIZE := Some n |}.

Definition zed : User :=
  {| id := 1; username := "zed"; first_name := "Zed"; get_full_name := "Zed Young";
     id_range := I |}.

Definition amy : User :=
  {| id := 2; username := "amy"; first_name := "Amy"; get_full_name := "Amy Adams";
     id_range := I |}.

Definition bob : User :=
  {| id := 3; username := "bob"; first_name := "Bob"; get_full_name := "Bob Ray";
     id_range := I |}.

Definition alice : User :=
  {| id := 40; username := "alice"; first_name := EmptyString;
     get_full_name := EmptyString; id_range := I |}.

Definition alice_smith : User :=
  {| id := 41; username := "asmith"; first_name := "Alice";
     get_full_name := "Alice Smith";
     id_range := I |}.

Definition log (who whom : User) (key : string) (start : Z) (stop : option Z)
  : ImpersonationLog :=
  {| impersonator := who; impersonating := whom; session_key := key;
     session_started_at := start; session_ended_at := stop |}.

(** Four sessions of three impersonators, in first-name order
    Amy, Bob, Zed; two of the sessions have ended. *)
Definition sample : QuerySet :=
  [ log amy alice "k1" 100 (Some 160);
    log zed alice "k2" 200 None;
    log bob alice_smith "k3" 300 (Some 330);
    log zed alice_smith "k4" 400 None ].

(** ** Facts about the query layer *)

Lemma filter_isnull_true queryset :
  filter_session_ended_at__isnull true queryset = filter incomplete queryset.
Proof.
  unfold filter_session_ended_at__isnull.
  apply list_filter_iff. intros q. unfold incomplete.
  rewrite bool_decide_eq_true. done.
Qed.

Lemma filter_isnull_false queryset :
  filter_session_ended_at__isnull false queryset
  = filter (λ q, ¬ incomplete q) queryset.
Proof.
  unfold filter_session_ended_at__isnull.
  apply list_filter_iff. intros q. unfold incomplete.
  rewrite bool_decide_eq_false. done.
Qed.

Lemma insert_by_first_name_Permutation q queryset :
  insert_by_first_name q queryset ≡ₚ q :: queryset.
Proof.
  induction queryset as [|q' queryset IH]; simpl; [done|].
  case_decide; [done|]. by rewrite IH, Permutation_swap.
Qed.

Lemma order_by_Permutation queryset :
  order_by_impersonator__first_name queryset ≡ₚ queryset.
Proof.
  unfold order_by_impersonator__first_name.
  induction queryset as [|q queryset IH]; simpl; [done|].
  by rewrite insert_by_first_name_Permutation, IH.
Qed.

Lemma value_eq_true v s : value_eq v s = true ↔ v = Some s.
Proof. unfold value_eq. apply bool_decide_eq_true. Qed.

Lemma value_eq_false v s : value_eq v s = false ↔ v ≠ Some s.
Proof. unfold value_eq. apply bool_decide_eq_false. Qed.

(** ** The friendly label *)

(** C2: the friendly label of a user is the full name when the full name
    is a non-empty string, and the username otherwise. *)
Theorem friendly_name_rule (user : User) :
  (get_full_name user ≠ EmptyString → friendly_name user = get_full_name user)
  ∧ (get_full_name user = EmptyString → friendly_name user = username user).
Proof.
  unfold friendly_name.
  destruct (String.eqb_spec (get_full_name user) EmptyString) as [E|E]; simpl.
  - split; [intros H; contradiction | done].
  - split; [done | intros H; contradiction].
Qed.

(** The two users of the scenario: an empty full name gives the username,
    a full name gives the full name. *)
Lemma friendly_name_rule_witness :
  friendly_name alice = "alice" ∧ friendly_name alice_smith = "Alice Smith".
Proof.
  split.
  - apply (proj2 (friendly_name_rule alice)). reflexivity.
  - apply (proj1 (friendly_name_rule alice_smith)). discriminate.
Defined.

(** ** The session-state filter *)

(** C1: with no selection the session-state filter returns the collection
    as it is; with the selection [incomplete] it returns the rows whose
    end timestamp is null, each as often and in the order the collection
    has them, and no other row. *)
Theorem session_state_none_and_incomplete (queryset : QuerySet) :
  SessionStateFilter.queryset None queryset = queryset
  ∧ SessionStateFilter.queryset (Some "incomplete") queryset
    = filter incomplete queryset
  ∧ (∀ q, q ∈ SessionStateFilter.queryset (Some "incomplete") queryset
          ↔ q ∈ queryset ∧ session_ended_at q = None).
Proof.
  assert (E : SessionStateFilter.queryset (Some "incomplete") queryset
              = filter incomplete queryset).
  { unfold SessionStateFilter.queryset. simpl. apply filter_isnull_true. }
  split; [reflexivity | split; [exact E |]].
  intros q. rewrite E, list_elem_of_filter. unfold incomplete. tauto.
Qed.

(** C7: the rows returned under [complete] are the rows of the collection
    that are not returned under [incomplete]: no row is in both results,
    and the two results together are the collection. *)
Theorem session_state_complete_is_complement (queryset : QuerySet) :
  let inc := SessionStateFilter.queryset (Some "incomplete") queryset in
  let com := SessionStateFilter.queryset (Some "complete") queryset in
  (∀ q, q ∈ inc → q ∉ com)
  ∧ inc ++ com ≡ₚ queryset
  ∧ (∀ q, q ∈ com ↔ q ∈ queryset ∧ q ∉ inc).
Proof.
  simpl.
  assert (Ei : SessionStateFilter.queryset (Some "incomplete") queryset
               = filter incomplete queryset).
  { unfold SessionStateFilter.queryset. simpl. apply filter_isnull_true. }
  assert (Ec : SessionStateFilter.queryset (Some "complete") queryset
               = filter (λ q, ¬ incomplete q) queryset).
  { unfold SessionStateFilter.queryset. simpl. apply filter_isnull_false. }
  rewrite Ei, Ec. split; [| split].
  - intros q. rewrite !list_elem_of_filter. tauto.
  - apply filter_app_complement.
  - intros q. rewrite !list_elem_of_filter. tauto.
Qed.

(** C9: a selection that is neither [incomplete] nor [complete], absent or
    any other string, leaves the collection as it is; the filter has no
    way to fail. *)
Theorem session_state_other_selection (self_value : value) (queryset : QuerySet) :
  self_value ≠ Some "incomplete" →
  self_value ≠ Some "complete" →
  SessionStateFilter.queryset self_value queryset = queryset.
Proof.
  intros Hi Hc. unfold SessionStateFilter.queryset.
  apply value_eq_false in Hi. apply value_eq_false in Hc.
  rewrite Hi, Hc. reflexivity.
Qed.

Lemma session_state_other_selection_witness :
  SessionStateFilter.queryset (Some "Incomplete ") sample = sample
  ∧ SessionStateFilter.queryset (Some EmptyString) sample = sample.
Proof.
  split; apply session_state_other_selection; discriminate.
Defined.

(** ** Facts about sets *)

Lemma pypy_foldl_NoDup (s l : list User) :
  NoDup (id <$> s) → NoDup (id <$> foldl pypy.set_add s l).
Proof.
  revert s. induction l as [|u l IH]; intros s Hs; simpl; [done|].
  apply IH. unfold pypy.set_add. case_bool_decide as Hu; [done|].
  rewrite fmap_app. apply NoDup_app. split; [done|]. split.
  - intros i Hi Hi'. simpl in Hi'. apply list_elem_of_singleton in Hi' as ->.
    contradiction.
  - simpl. apply NoDup_singleton.
Qed.

Lemma pypy_foldl_elem (s l : list User) (u : User) :
  u ∈ foldl pypy.set_add s l → u ∈ s ∨ u ∈ l.
Proof.
  revert s. induction l as [|u' l IH]; intros s Hu; simpl in *; [by left|].
  apply IH in Hu as [Hu|Hu]; [| right; by right].
  unfold pypy.set_add in Hu. case_bool_decide; [by left|].
  apply elem_of_app in Hu as [Hu|Hu]; [by left|].
  apply list_elem_of_singleton in Hu as ->. right. by left.
Qed.

Lemma pypy_foldl_key (s l : list User) (i : Z) :
  i ∈ id <$> s ∨ i ∈ id <$> l → i ∈ id <$> foldl pypy.set_add s l.
Proof.
  revert s. induction l as [|u l IH]; intros s Hi; simpl in *.
  { destruct Hi as [Hi|Hi]; [done | by apply elem_of_nil in Hi]. }
  apply IH. unfold pypy.set_add.
  destruct Hi as [Hi|Hi].
  - left. case_bool_decide; [done|]. rewrite fmap_app. apply elem_of_app. by left.
  - apply elem_of_cons in Hi as [->|Hi]; [| by right].
    left. case_bool_decide; [done|].
    rewrite fmap_app. apply elem_of_app. right. by left.
Qed.

(** The insertion-ordered set is a set. *)
Lemma PyPy_laws : SetLaws PyPy.
Proof.
  split; simpl; unfold pypy.set_iter.
  - intros l. apply pypy_foldl_NoDup. constructor.
  - intros l u Hu. apply pypy_foldl_elem in Hu as [Hu|Hu]; [|done].
    by apply elem_of_nil in Hu.
  - intros l u Hu. apply pypy_foldl_key. right. by apply list_elem_of_fmap_2.
Qed.

(** ** Facts about the impersonator filter *)

Section lookups.
Context {R : Runtime} `{!SetLaws R}.

Lemma order_by_elem queryset q :
  q ∈ order_by_impersonator__first_name queryset ↔ q ∈ queryset.
Proof.
  by rewrite order_by_Permutation.
Qed.

Lemma impersonators_elem queryset u :
  u ∈ ImpersonatorFilter.impersonators queryset →
  ∃ q, q ∈ queryset ∧ u = impersonator q.
Proof.
  unfold ImpersonatorFilter.impersonators. intros Hu.
  apply set_iter_elem in Hu.
  apply list_elem_of_fmap in Hu as (q & -> & Hq).
  exists q. split; [by apply order_by_elem | done].
Qed.

Lemma impersonators_NoDup queryset :
  NoDup (id <$> ImpersonatorFilter.impersonators queryset).
Proof. apply set_iter_NoDup. Qed.

Lemma impersonators_ids queryset :
  list_to_set (id <$> ImpersonatorFilter.impersonators queryset)
  = distinct_impersonators queryset.
Proof.
  unfold distinct_impersonators. apply set_eq. intros i.
  rewrite !elem_of_list_to_set. split.
  - intros (u & -> & Hu)%list_elem_of_fmap.
    apply impersonators_elem in Hu as (q & Hq & ->).
    apply list_elem_of_fmap. by exists q.
  - intros (q & -> & Hq)%list_elem_of_fmap.
    unfold ImpersonatorFilter.impersonators, impersonator_id.
    apply set_iter_key. apply list_elem_of_fmap_2. by apply order_by_elem.
Qed.

Lemma impersonators_perm queryset :
  id <$> ImpersonatorFilter.impersonators queryset
  ≡ₚ elements (distinct_impersonators queryset).
Proof.
  rewrite <- impersonators_ids.
  symmetry. apply elements_list_to_set, impersonators_NoDup.
Qed.

Lemma impersonators_length queryset :
  length (ImpersonatorFilter.impersonators queryset) = distinct_count queryset.
Proof.
  unfold distinct_count. rewrite <- impersonators_ids.
  rewrite size_list_to_set by apply impersonators_NoDup.
  by rewrite length_fmap.
Qed.

Lemma lookups_shown settings queryset :
  Z.of_nat (distinct_count queryset) ≤ MAX_FILTER_SIZE settings →
  ImpersonatorFilter.lookups settings queryset
  = option_of <$> ImpersonatorFilter.impersonators queryset.
Proof.
  intros Hc. unfold ImpersonatorFilter.lookups.
  rewrite impersonators_length. case_bool_decide; [lia | done].
Qed.

Lemma lookups_hidden settings queryset :
  MAX_FILTER_SIZE settings < Z.of_nat (distinct_count queryset) →
  ImpersonatorFilter.lookups settings queryset = [].
Proof.
  intros Hc. unfold ImpersonatorFilter.lookups.
  rewrite impersonators_length. case_bool_decide; [done | lia].
Qed.

Lemma distinct_count_0 queryset : distinct_count queryset = 0%nat ↔ queryset = [].
Proof.
  unfold distinct_count, distinct_impersonators. split.
  - intros H0%size_empty_inv. destruct queryset as [|q queryset]; [done|].
    exfalso. apply (not_elem_of_empty (C:=gset Z) (impersonator_id q)).
    rewrite <- H0. set_solver.
  - intros ->. done.
Qed.

End lookups.

(** ** The impersonator filter: the option list *)

(** C3: when the number of distinct impersonators of the collection is at
    most the cap, the option list has that many entries, no identity
    occurs twice in it, its identities are the distinct impersonators of
    the collection, and every entry pairs the identity of an impersonator
    of the collection with that user's friendly label. *)
Theorem lookups_within_cap {R : Runtime} `{!SetLaws R}
    (settings : Settings) (queryset : QuerySet) :
  Z.of_nat (distinct_count queryset) ≤ MAX_FILTER_SIZE settings →
  let options := ImpersonatorFilter.lookups settings queryset in
  length options = distinct_count queryset
  ∧ NoDup options.*1
  ∧ options.*1 ≡ₚ elements (distinct_impersonators queryset)
  ∧ (∀ o, o ∈ options →
       ∃ q, q ∈ queryset
            ∧ o = (impersonator_id q, friendly_name (impersonator q))).
Proof.
  intros Hc. simpl. rewrite (lookups_shown _ _ Hc).
  assert (E : (option_of <$> ImpersonatorFilter.impersonators queryset).*1
              = id <$> ImpersonatorFilter.impersonators queryset).
  { rewrite <- list_fmap_compose. done. }
  rewrite E. split; [| split; [| split]].
  - rewrite length_fmap. apply impersonators_length.
  - apply impersonators_NoDup.
  - apply impersonators_perm.
  - intros o (u & -> & Hu)%list_elem_of_fmap.
    apply impersonators_elem in Hu as (q & Hq & ->). by exists q.
Qed.

(** Cap 100 and the three impersonators of the sample. *)
Lemma lookups_within_cap_witness :
  let options := ImpersonatorFilter.lookups (R:=PyPy) settings_default sample in
  length options = distinct_count sample
  ∧ NoDup options.*1
  ∧ options.*1 ≡ₚ elements (distinct_impersonators sample)
  ∧ (∀ o, o ∈ options →
       ∃ q, q ∈ sample
            ∧ o = (impersonator_id q, friendly_name (impersonator q))).
Proof.
  apply (lookups_within_cap (R:=PyPy) (SetLaws0:=PyPy_laws)).
  vm_compute. discriminate.
Defined.

(** C4, as stated, fails on the empty collection: nothing exceeds the cap
    and the option list is empty all the same. *)
Lemma lookups_empty_below_cap :
  ¬ (ImpersonatorFilter.lookups (R:=CPython) settings_default [] = []
     ↔ MAX_FILTER_SIZE settings_default < Z.of_nat (distinct_count [])).
Proof.
  intros [H _]. specialize (H eq_refl). vm_compute in H. discriminate.
Qed.

(** C4, amended: the option list is empty exactly when the number of
    distinct impersonators strictly exceeds the cap or the collection has
    no row; a number equal to the cap still gives the full list. *)
Theorem lookups_empty_iff {R : Runtime} `{!SetLaws R}
    (settings : Settings) (queryset : QuerySet) :
  (ImpersonatorFilter.lookups settings queryset = []
   ↔ MAX_FILTER_SIZE settings < Z.of_nat (distinct_count queryset)
     ∨ queryset = [])
  ∧ (Z.of_nat (distinct_count queryset) = MAX_FILTER_SIZE settings →
     length (ImpersonatorFilter.lookups settings queryset)
     = distinct_count queryset).
Proof.
  split.
  - destruct (decide (MAX_FILTER_SIZE settings
                      < Z.of_nat (distinct_count queryset))) as [Hc|Hc].
    { split; [by left | intros _; by apply lookups_hidden]. }
    assert (El : length (ImpersonatorFilter.lookups settings queryset)
                 = distinct_count queryset).
    { rewrite lookups_shown by lia. rewrite length_fmap.
      apply impersonators_length. }
    split.
    + intros E. right. apply distinct_count_0. rewrite <- El, E. done.
    + intros [Hc'|E]; [lia|]. apply distinct_count_0 in E.
      apply nil_length_inv. by rewrite El.
  - intros Hc. rewrite lookups_shown by lia. rewrite length_fmap.
    apply impersonators_length.
Qed.

(** Cap 3 and the three impersonators of the sample: the list is shown. *)
Lemma lookups_empty_iff_witness :
  (ImpersonatorFilter.lookups (R:=PyPy) (settings_cap 3) sample = []
   ↔ MAX_FILTER_SIZE (settings_cap 3) < Z.of_nat (distinct_count sample)
     ∨ sample = [])
  ∧ length (ImpersonatorFilter.lookups (R:=PyPy) (settings_cap 3) sample)
    = distinct_count sample.
Proof.
  destruct (lookups_empty_iff (R:=PyPy) (SetLaws0:=PyPy_laws)
              (settings_cap 3) sample) as [H1 H2].
  split; [exact H1 | apply H2; reflexivity].
Defined.

(** C6: on CPython the options come in the order of the hash table of the
    set, here by primary key, while the first names ask for Amy, Bob, Zed:
    the order given by [order_by] is lost in [set]. *)
Theorem lookups_order_on_cpython :
  ImpersonatorFilter.lookups (R:=CPython) settings_default sample
  = [(1, "Zed Young"); (2, "Amy Adams"); (3, "Bob Ray")]
  ∧ first_name <$> ImpersonatorFilter.impersonators (R:=CPython) sample
    = ["Zed"; "Amy"; "Bob"]
  ∧ ¬ Sorted by_first_name (ImpersonatorFilter.impersonators (R:=CPython) sample)
  ∧ first_name ∘ impersonator <$> order_by_impersonator__first_name sample
    = ["Amy"; "Bob"; "Zed"; "Zed"].
Proof.
  split; [by vm_compute|]. split; [by vm_compute|]. split; [|by vm_compute].
  intros Hs.
  assert (E : ImpersonatorFilter.impersonators (R:=CPython) sample
              = [zed; amy; bob]) by (by vm_compute).
  rewrite E in Hs. inversion Hs as [|? ? _ Hd]; subst.
  inversion Hd as [|? ? Hle]; subst.
  unfold by_first_name in Hle. vm_compute in Hle. exact Hle.
Qed.

(** ** Facts about the conversion *)

Lemma key_range_true (n : Z) : key_range n = true ↔ - 2 ^ 63 ≤ n < 2 ^ 63.
Proof. unfold key_range. apply bool_decide_eq_true. Qed.

Lemma key_range_id (u : User) : key_range (id u) = true.
Proof. apply Is_true_true, id_range. Qed.

Lemma decimal_digits_length (fuel : nat) : ∀ n,
  (length (decimal_digits fuel n) ≤ fuel)%nat.
Proof.
  induction fuel as [|fuel IH]; intros n; simpl; [done|].
  case_bool_decide; simpl; [lia|].
  rewrite length_app. simpl. specialize (IH (n `div` 10)). lia.
Qed.

Lemma decimal_digits_digits (fuel : nat) : ∀ n,
  0 ≤ n → Forall (λ d, 0 ≤ d ≤ 9) (decimal_digits fuel n).
Proof.
  induction fuel as [|fuel IH]; intros n Hn; simpl; [done|].
  case_bool_decide; [apply Forall_singleton; lia|].
  apply Forall_app. split.
  - apply IH. apply Z.div_pos; lia.
  - apply Forall_singleton. assert (Hm := Z.mod_pos_bound n 10). lia.
Qed.

Lemma decimal_digits_nonempty (fuel : nat) (n : Z) :
  decimal_digits (S fuel) n ≠ [].
Proof.
  simpl. case_bool_decide; [done|].
  intros E. apply app_eq_nil in E as [_ E]. done.
Qed.

Lemma decimal_digits_value (fuel : nat) : ∀ n,
  0 ≤ n < 2 ^ Z.of_nat fuel →
  foldl (λ a d, 10 * a + d) 0 (decimal_digits fuel n) = n.
Proof.
  induction fuel as [|fuel IH]; intros n Hn; simpl.
  { simpl in Hn. lia. }
  case_bool_decide as H10; [simpl; lia|].
  rewrite foldl_app. simpl. rewrite IH.
  - assert (Hdm := Z_div_mod_eq_full n 10). lia.
  - rewrite Nat2Z.inj_succ, Z.pow_succ_r in Hn by lia.
    split; [apply Z.div_pos; lia|].
    apply Z.div_lt_upper_bound; lia.
Qed.

Lemma pyint_digits_decimal (ds : list Z) : ∀ a b,
  Forall (λ d, 0 ≤ d ≤ 9) ds → ds ≠ [] →
  pyint.digits a b ((λ d, 48 + d) <$> ds) = Some (foldl (λ a d, 10 * a + d) a ds).
Proof.
  induction ds as [|d ds IH]; intros a b Hds Hne; [done|].
  apply Forall_cons in Hds as [Hd Hds]. simpl.
  rewrite bool_decide_eq_false_2 by lia.
  unfold pyint.digit. rewrite bool_decide_eq_true_2 by lia.
  replace (48 + d - 48) with d by lia.
  destruct ds as [|d' ds]; [done|]. by apply IH.
Qed.

Lemma pyint_lstrip_id (cs : list Z) :
  Forall (λ c, pyint.Py_ISSPACE c = false) cs → pyint.lstrip cs = cs.
Proof. destruct 1 as [|c cs Hc _]; simpl; [done | by rewrite Hc]. Qed.

Lemma pyint_strip_id (cs : list Z) :
  Forall (λ c, pyint.Py_ISSPACE c = false) cs → pyint.strip cs = cs.
Proof.
  intros Hcs. unfold pyint.strip.
  rewrite (pyint_lstrip_id cs), pyint_lstrip_id, reverse_involutive; try done.
  by apply Forall_reverse.
Qed.

Lemma digit_chars_plain (ds : list Z) :
  Forall (λ d, 0 ≤ d ≤ 9) ds →
  Forall (λ c, pyint.Py_ISSPACE c = false ∧ 48 ≤ c ≤ 57) ((λ d, 48 + d) <$> ds).
Proof.
  intros Hds. apply Forall_fmap. eapply Forall_impl; [exact Hds|].
  intros d Hd. unfold compose. cbv beta in Hd. split; [|lia].
  unfold pyint.Py_ISSPACE. apply bool_decide_eq_false. lia.
Qed.

(** The literal read back from the digits of an integer below [2 ^ 64]. *)
Lemma pyint_literal_decimal (n : Z) :
  0 ≤ n < 2 ^ 64 →
  pyint.literal
    ((λ d, 48 + d) <$> decimal_digits (S (Z.to_nat (Z.log2 n))) n)
  = Some n.
Proof.
  intros Hn. set (fuel := S (Z.to_nat (Z.log2 n))).
  assert (Hfuel : (fuel ≤ 64)%nat).
  { unfold fuel. destruct (decide (n = 0)) as [->|]; [simpl; lia|].
    assert (Z.log2 n < 64) by (apply Z.log2_lt_pow2; lia). lia. }
  assert (Hlt : 0 ≤ n < 2 ^ Z.of_nat fuel).
  { unfold fuel. rewrite Nat2Z.inj_succ, Z2Nat.id by apply Z.log2_nonneg.
    destruct (decide (n = 0)) as [->|]; [done|].
    split; [lia|]. apply Z.log2_spec. lia. }
  unfold pyint.literal. rewrite bool_decide_eq_true_2.
  - rewrite pyint_digits_decimal.
    + by rewrite decimal_digits_value.
    + apply decimal_digits_digits. lia.
    + apply decimal_digits_nonempty.
  - etrans; [apply inj_le, length_filter|].
    rewrite length_fmap. unfold pyint.MAX_STR_DIGITS.
    assert (Hl := decimal_digits_length fuel n). lia.
Qed.

Lemma pyint_FromString_decimal (n : Z) :
  key_range n = true → pyint.PyLong_FromString (decimal_chars n) = Some n.
Proof.
  intros Hn%key_range_true. unfold pyint.PyLong_FromString, decimal_chars.
  set (ds := decimal_digits (S (Z.to_nat (Z.log2 (Z.abs n)))) (Z.abs n)).
  assert (Hds : Forall (λ d, 0 ≤ d ≤ 9) ds) by (apply decimal_digits_digits; lia).
  assert (Hne : ds ≠ []) by apply decimal_digits_nonempty.
  assert (Hpl := digit_chars_plain ds Hds).
  assert (Hlit : pyint.literal ((λ d, 48 + d) <$> ds) = Some (Z.abs n)).
  { apply pyint_literal_decimal. lia. }
  case_bool_decide as Hneg.
  - rewrite pyint_strip_id.
    + rewrite bool_decide_eq_false_2, bool_decide_eq_true_2 by done.
      rewrite Hlit. simpl. f_equal. lia.
    + constructor; [done|]. eapply Forall_impl; [exact Hpl|]. by intros c [? _].
  - rewrite pyint_strip_id by (eapply Forall_impl; [exact Hpl|]; by intros c [? _]).
    destruct ds as [|d ds']; [done|]. simpl in *.
    apply Forall_cons in Hpl as [[_ Hd] _].
    rewrite !bool_decide_eq_false_2 by lia.
    rewrite Hlit. f_equal. lia.
Qed.

Lemma decimal_chars_ascii (n : Z) : Forall (λ c, 0 ≤ c < 128) (decimal_chars n).
Proof.
  unfold decimal_chars.
  assert (H : Forall (λ c, 0 ≤ c < 128)
                ((λ d, 48 + d)
                   <$> decimal_digits (S (Z.to_nat (Z.log2 (Z.abs n)))) (Z.abs n))).
  { eapply Forall_impl; [apply digit_chars_plain, decimal_digits_digits; lia|].
    intros c [_ Hc]. cbv beta in Hc |- *. lia. }
  case_bool_decide; [constructor; [lia | done] | done].
Qed.

Lemma bytes_decimal (n : Z) : pyint.bytes (decimal n) = decimal_chars n.
Proof.
  unfold pyint.bytes, decimal.
  rewrite String.list_ascii_of_string_of_list_ascii, <- list_fmap_compose.
  rewrite <- (list_fmap_id (decimal_chars n)) at 2.
  apply Forall_fmap_ext. eapply Forall_impl; [apply decimal_chars_ascii|].
  intros c Hc. cbv beta in Hc. unfold compose, Datatypes.id.
  rewrite nat_ascii_embedding by lia. lia.
Qed.

Lemma pyint_int_decimal (n : Z) :
  key_range n = true → pyint.int (decimal n) = Some n.
Proof.
  intros Hn. unfold pyint.int. rewrite bytes_decimal.
  replace (forallb _ (decimal_chars n)) with true.
  - by apply pyint_FromString_decimal.
  - symmetry. apply Is_true_true, forallb_True.
    eapply Forall_impl; [apply decimal_chars_ascii|].
    intros c Hc. cbv beta in Hc |- *. apply bool_decide_pack. lia.
Qed.

Lemma CPython_int_laws : IntLaws CPython.
Proof. split. apply pyint_int_decimal. Qed.

Lemma PyPy_int_laws : IntLaws PyPy.
Proof. split. apply pyint_int_decimal. Qed.

Lemma decimal_nonempty (n : Z) : decimal n ≠ EmptyString.
Proof.
  intros E. assert (Hb := bytes_decimal n). rewrite E in Hb.
  unfold decimal_chars in Hb. symmetry in Hb. revert Hb.
  case_bool_decide; [done|]. intros Hb%fmap_nil_inv.
  by apply decimal_digits_nonempty in Hb.
Qed.

Lemma impersonator_queryset_value {R : Runtime} (v : string) (queryset : QuerySet) :
  v ≠ EmptyString →
  ImpersonatorFilter.queryset (Some v) queryset = filter_impersonator_id v queryset.
Proof.
  intros Hv. unfold ImpersonatorFilter.queryset.
  destruct (String.eqb_spec v EmptyString); [contradiction | done].
Qed.

Lemma filter_impersonator_id_key {R : Runtime} (v : string) (n : Z)
    (queryset : QuerySet) :
  int v = Some n → key_range n = true →
  filter_impersonator_id v queryset
  = Ok (filter (λ q, impersonator_id q = n) queryset).
Proof. intros Hi Hk. unfold filter_impersonator_id. by rewrite Hi, Hk. Qed.

(** ** The impersonator filter: the selection *)

(** C5, as stated, fails on a value that is not an integer: the selection
    [abc] makes the query layer raise, where the claim promises the rows
    that match, here none. *)
Lemma impersonator_queryset_raises :
  "abc" ≠ EmptyString
  ∧ ImpersonatorFilter.queryset (R:=CPython) (Some "abc") sample = Raise ValueError
  ∧ ¬ narrows_to_matching (R:=CPython) "abc" sample
        (ImpersonatorFilter.queryset (R:=CPython) (Some "abc") sample).
Proof.
  split; [discriminate|]. split; [reflexivity|].
  unfold narrows_to_matching. discriminate.
Qed.

(** C5, amended: an absent or empty selection returns the collection as it
    is; a non-empty selection that converts to an identity in the range of
    the keys, as the decimal text of every such identity does, returns
    the rows whose impersonator has that identity, each as often and in
    the order the collection has them; a non-empty selection that does not
    convert raises the conversion error; one that converts to an integer
    outside the range of the keys gets what the database does with such
    an integer, its error or no row. *)
Theorem impersonator_queryset_selection {R : Runtime} `{!IntLaws R}
    (queryset : QuerySet) :
  ImpersonatorFilter.queryset None queryset = Ok queryset
  ∧ ImpersonatorFilter.queryset (Some EmptyString) queryset = Ok queryset
  ∧ (∀ n, key_range n = true →
       ImpersonatorFilter.queryset (Some (decimal n)) queryset
       = Ok (filter (λ q, impersonator_id q = n) queryset))
  ∧ (∀ v n, v ≠ EmptyString → int v = Some n → key_range n = true →
       ImpersonatorFilter.queryset (Some v) queryset
       = Ok (filter (λ q, impersonator_id q = n) queryset))
  ∧ (∀ v, v ≠ EmptyString → int v = None →
       ImpersonatorFilter.queryset (Some v) queryset = Raise ValueError)
  ∧ (∀ v n, v ≠ EmptyString → int v = Some n → key_range n = false →
       ImpersonatorFilter.queryset (Some v) queryset
       = match out_of_range with
         | Some e => Raise e
         | None => Ok []
         end).
Proof.
  split; [reflexivity|]. split; [reflexivity|]. split; [|split; [|split]].
  - intros n Hk. rewrite impersonator_queryset_value by apply decimal_nonempty.
    apply filter_impersonator_id_key; [by apply int_decimal | done].
  - intros v n Hv Hi Hk. rewrite impersonator_queryset_value by done.
    by apply filter_impersonator_id_key.
  - intros v Hv Hi. rewrite impersonator_queryset_value by done.
    unfold filter_impersonator_id. by rewrite Hi.
  - intros v n Hv Hi Hk. rewrite impersonator_queryset_value by done.
    unfold filter_impersonator_id. rewrite Hi, Hk. by destruct out_of_range.
Qed.

(** On CPython over SQLite: the decimal text of the key 1 of Zed keeps the
    two sessions of Zed, the text [1.5] raises the conversion error, and
    the text of [2 ^ 63] raises the error of the database. *)
Lemma impersonator_queryset_selection_witness :
  ImpersonatorFilter.queryset (R:=CPython) (Some (decimal 1)) sample
  = Ok [ log zed alice "k2" 200 None; log zed alice_smith "k4" 400 None ]
  ∧ ImpersonatorFilter.queryset (R:=CPython) (Some " 1 ") sample
    = Ok [ log zed alice "k2" 200 None; log zed alice_smith "k4" 400 None ]
  ∧ ImpersonatorFilter.queryset (R:=CPython) (Some "1.5") sample
    = Raise ValueError
  ∧ ImpersonatorFilter.queryset (R:=CPython) (Some "9223372036854775808") sample
    = Raise OverflowError.
Proof.
  destruct (impersonator_queryset_selection (R:=CPython)
              (IntLaws0:=CPython_int_laws) sample)
    as (_ & _ & H1 & H2 & H3 & H4).
  split; [| split; [| split]].
  - rewrite (H1 1) by reflexivity. reflexivity.
  - rewrite (H2 " 1 " 1) by (discriminate || reflexivity). reflexivity.
  - apply H3; [discriminate | reflexivity].
  - rewrite (H4 "9223372036854775808" 9223372036854775808)
      by (discriminate || reflexivity).
    reflexivity.
Defined.

(** C10, as stated, fails on a value that is not an integer, with the
    options suppressed as with the options shown: under cap 2 the sample
    gets no option, and the selection [abc] raises where the claim has it
    narrow the collection. *)
Lemma impersonator_queryset_unchecked_raises :
  ImpersonatorFilter.lookups (R:=CPython) (settings_cap 2) sample = []
  ∧ "abc" ≠ EmptyString
  ∧ (∀ rows, ImpersonatorFilter.queryset (R:=CPython) (Some "abc") sample
             ≠ Ok rows).
Proof.
  split; [by vm_compute|]. split; [discriminate|].
  intros rows. by vm_compute.
Qed.

(** C10, amended: the impersonator filter never looks at the option list.
    A non-empty selection that converts to an identity in the range of
    the keys, as the decimal text of every such identity does, narrows
    the collection to the rows of that impersonator: to no row when the
    options are shown and the identity is not among them, and to the rows
    of that impersonator also when the options are suppressed because the
    distinct impersonators exceed the cap.  A non-empty selection that
    does not convert raises the conversion error, and one that converts
    to an integer outside the range of the keys gets what the database
    does with such an integer. *)
Theorem impersonator_queryset_unchecked {R : Runtime} `{!SetLaws R}
    `{!IntLaws R} (settings : Settings) (queryset : QuerySet)
    (v : string) :
  v ≠ EmptyString →
  (int v = None →
     ImpersonatorFilter.queryset (Some v) queryset = Raise ValueError)
  ∧ (∀ n, int v = Some n → key_range n = false →
       ImpersonatorFilter.queryset (Some v) queryset
       = match out_of_range with
         | Some e => Raise e
         | None => Ok []
         end)
  ∧ (∀ n, int v = Some n → key_range n = true →
       ImpersonatorFilter.queryset (Some v) queryset
       = Ok (filter (λ q, impersonator_id q = n) queryset)
       ∧ ImpersonatorFilter.queryset (Some (decimal n)) queryset
         = Ok (filter (λ q, impersonator_id q = n) queryset)
       ∧ (Z.of_nat (distinct_count queryset) ≤ MAX_FILTER_SIZE settings →
          n ∉ (ImpersonatorFilter.lookups settings queryset).*1 →
          ImpersonatorFilter.queryset (Some v) queryset = Ok [])
       ∧ (MAX_FILTER_SIZE settings < Z.of_nat (distinct_count queryset) →
          ImpersonatorFilter.lookups settings queryset = []
          ∧ ∀ q, q ∈ queryset → impersonator_id q = n →
              ∃ rows, ImpersonatorFilter.queryset (Some v) queryset = Ok rows
                      ∧ q ∈ rows)).
Proof.
  intros Hv. rewrite impersonator_queryset_value by done.
  split; [| split].
  - intros Hi. unfold filter_impersonator_id. by rewrite Hi.
  - intros n Hi Hk. unfold filter_impersonator_id. rewrite Hi, Hk.
    by destruct out_of_range.
  - intros n Hi Hk.
    rewrite (filter_impersonator_id_key v n) by done.
    split; [done|]. split; [| split].
    + rewrite impersonator_queryset_value by apply decimal_nonempty.
      apply filter_impersonator_id_key; [by apply int_decimal | done].
    + intros Hc Hn. f_equal.
      destruct (filter (λ q, impersonator_id q = n) queryset)
        as [|q rows] eqn:E; [done|]. exfalso. apply Hn.
      assert (Hq : q ∈ filter (λ q, impersonator_id q = n) queryset)
        by (rewrite E; left).
      apply list_elem_of_filter in Hq as [<- Hq].
      rewrite lookups_shown by done.
      rewrite <- list_fmap_compose.
      change (fst ∘ option_of) with id.
      unfold ImpersonatorFilter.impersonators, impersonator_id.
      apply set_iter_key, list_elem_of_fmap_2. by apply order_by_elem.
    + intros Hc. split; [by apply lookups_hidden|].
      intros q Hq Hn. eexists. split; [done|].
      apply list_elem_of_filter. done.
Qed.

(** On PyPy, cap 2 and the three impersonators of the sample: no option is
    shown, the selection of Bob by the text of his key 3 keeps the session
    of Bob, and under cap 100 the text [7] of no impersonator keeps no
    row. *)
Lemma impersonator_queryset_unchecked_witness :
  ImpersonatorFilter.lookups (R:=PyPy) (settings_cap 2) sample = []
  ∧ ImpersonatorFilter.queryset (R:=PyPy) (Some "3") sample
    = Ok [ log bob alice_smith "k3" 300 (Some 330) ]
  ∧ ImpersonatorFilter.queryset (R:=PyPy) (Some "7") sample = Ok []
  ∧ ImpersonatorFilter.queryset (R:=PyPy) (Some "x3") sample = Raise ValueError.
Proof.
  destruct (impersonator_queryset_unchecked (R:=PyPy) (SetLaws0:=PyPy_laws)
              (IntLaws0:=PyPy_int_laws) (settings_cap 2) sample "3")
    as (_ & _ & H3); [discriminate|].
  destruct (H3 3) as (E3 & _ & _ & Hh); [reflexivity | reflexivity |].
  destruct Hh as [Hl _]; [vm_compute; reflexivity|].
  destruct (impersonator_queryset_unchecked (R:=PyPy) (SetLaws0:=PyPy_laws)
              (IntLaws0:=PyPy_int_laws) settings_default sample "7")
    as (_ & _ & H7); [discriminate|].
  destruct (H7 7) as (_ & _ & E7 & _); [reflexivity | reflexivity |].
  destruct (impersonator_queryset_unchecked (R:=PyPy) (SetLaws0:=PyPy_laws)
              (IntLaws0:=PyPy_int_laws) settings_default sample "x3")
    as (Ex & _); [discriminate|].
  split; [exact Hl|]. split; [rewrite E3; reflexivity|].
  split; [apply E7; [vm_compute; discriminate | compute_done]|].
  apply Ex. reflexivity.
Defined.

(** ** The admin descriptor *)

(** C8: the descriptor shows the five columns impersonator label,
    impersonated label, session key, start time and duration, makes the
    six fields impersonator, impersonated, session key, start time, end
    time and duration read-only, attaches the session-state filter, the
    impersonator filter and the filter on the start time, and resolves
    each of the two labels to the friendly label of that user of the
    row. *)
Theorem admin_descriptor :
  ImpersonationLogAdmin.list_display
  = ["impersonator_"; "impersonating_"; "session_key"; "session_started_at";
     "duration"]
  ∧ ImpersonationLogAdmin.readonly_fields
    = ["impersonator"; "impersonating"; "session_key"; "session_started_at";
       "session_ended_at"; "duration"]
  ∧ ImpersonationLogAdmin.list_filter
    = [ImpersonationLogAdmin.SessionStateFilter;
       ImpersonationLogAdmin.ImpersonatorFilter;
       ImpersonationLogAdmin.Field "session_started_at"]
  ∧ NoDup ImpersonationLogAdmin.list_display
  ∧ NoDup ImpersonationLogAdmin.readonly_fields
  ∧ NoDup ImpersonationLogAdmin.list_filter
  ∧ (∀ obj, ImpersonationLogAdmin.impersonator_ obj
            = friendly_name (impersonator obj)
          ∧ ImpersonationLogAdmin.impersonating_ obj
            = friendly_name (impersonating obj)).
Proof.
  split; [reflexivity|]. split; [reflexivity|]. split; [reflexivity|].
  split; [compute_done|]. split; [compute_done|].
  split; [| by intros obj].
  unfold ImpersonationLogAdmin.list_filter.
  repeat constructor; rewrite ?elem_of_cons, ?elem_of_nil; intros H;
    repeat destruct H as [H|H]; (discriminate || done).
Qed.

(** ** The probe recurrence visits every slot *)

Lemma pow5_mod4 (e : nat) : 5 ^ Z.of_nat e `mod` 4 = 1.
Proof.
  induction e as [|e IH]; [done|].
  rewrite Nat2Z.inj_succ, Z.pow_succ_r by lia.
  rewrite <- Z.mul_mod_idemp_r, IH by lia. done.
Qed.

Lemma pow5_odd_mod8 (e : nat) : 5 ^ (2 * Z.of_nat e + 1) `mod` 8 = 5.
Proof.
  induction e as [|e IH]; [done|].
  replace (2 * Z.of_nat (S e) + 1) with (2 + (2 * Z.of_nat e + 1)) by lia.
  rewrite Z.pow_add_r by lia.
  rewrite <- Z.mul_mod_idemp_r, IH by lia. done.
Qed.

Lemma pow2_divide_odd (n : nat) : ∀ x c,
  c `mod` 2 = 1 → (2 ^ Z.of_nat n | x * c) → (2 ^ Z.of_nat n | x).
Proof.
  induction n as [|n IH]; intros x c Hc Hd; [apply Z.divide_1_l|].
  rewrite Nat2Z.inj_succ, Z.pow_succ_r in * by lia.
  destruct Hd as [q Hq].
  assert (Hx : x `mod` 2 = 0).
  { assert (H0 : (x * c) `mod` 2 = 0).
    { rewrite Hq. replace (q * (2 * 2 ^ Z.of_nat n)) with (q * 2 ^ Z.of_nat n * 2) by ring.
      apply Z.mod_mul. lia. }
    rewrite <- Z.mul_mod_idemp_r, Hc, Z.mul_1_r in H0 by lia. done. }
  assert (Ex : x = 2 * (x `div` 2)) by (apply Z_div_exact_full_2; lia).
  destruct (IH (x `div` 2) c Hc) as [r Hr].
  { exists q. nia. }
  exists r. nia.
Qed.

Lemma pow5_order (d : nat) : ∀ k : nat,
  (2 ^ (Z.of_nat k + 2) | 5 ^ Z.of_nat d - 1) → (2 ^ Z.of_nat k | Z.of_nat d).
Proof.
  induction (lt_wf d) as [d _ IH]. intros k Hk.
  destruct k as [|k]; [apply Z.divide_1_l|].
  destruct (Nat.Even_or_Odd d) as [[e He]|[e He]].
  - (* d = 2e *)
    destruct (decide (e = 0%nat)) as [->|Hne].
    { subst d. simpl. apply Z.divide_0_r. }
    assert (H5 : 5 ^ Z.of_nat e = 4 * (5 ^ Z.of_nat e `div` 4) + 1).
    { assert (Hm := pow5_mod4 e).
      assert (Hdm := Z.div_mod (5 ^ Z.of_nat e) 4). lia. }
    set (c := 2 * (5 ^ Z.of_nat e `div` 4) + 1).
    assert (Hc : c `mod` 2 = 1).
    { unfold c. rewrite Z.add_comm, Z.mul_comm, Z.mod_add by lia. done. }
    assert (Hf : 5 ^ Z.of_nat d - 1 = (5 ^ Z.of_nat e - 1) * (2 * c)).
    { subst d. replace (Z.of_nat (2 * e)) with (Z.of_nat e + Z.of_nat e) by lia.
      rewrite Z.pow_add_r by lia. unfold c. lia. }
    rewrite Hf in Hk.
    replace (Z.of_nat (S k) + 2) with (1 + (Z.of_nat k + 2)) in Hk by lia.
    rewrite Z.pow_add_r in Hk by lia.
    replace ((5 ^ Z.of_nat e - 1) * (2 * c))
      with (2 ^ 1 * ((5 ^ Z.of_nat e - 1) * c)) in Hk by ring.
    apply Z.mul_divide_cancel_l in Hk; [|done].
    replace (Z.of_nat k + 2) with (Z.of_nat (k + 2)) in Hk by lia.
    apply pow2_divide_odd in Hk; [|done].
    replace (Z.of_nat (k + 2)) with (Z.of_nat k + 2) in Hk by lia.
    apply IH in Hk; [|lia].
    subst d. rewrite Nat2Z.inj_succ, Z.pow_succ_r by lia.
    rewrite Nat2Z.inj_mul. by apply Z.mul_divide_mono_l.
  - (* d odd *)
    exfalso. subst d.
    assert (H8 : (8 | 5 ^ Z.of_nat (2 * e + 1) - 1)).
    { etrans; [|exact Hk].
      exists (2 ^ Z.of_nat k).
      replace (Z.of_nat (S k) + 2) with (Z.of_nat k + 3) by lia.
      rewrite Z.pow_add_r by lia. done. }
    apply Z.mod_divide in H8; [|lia].
    replace (Z.of_nat (2 * e + 1)) with (2 * Z.of_nat e + 1) in H8 by lia.
    rewrite <- Zminus_mod_idemp_l, pow5_odd_mod8 in H8. done.
Qed.

Lemma lcg_closed (k : nat) (i : Z) (t : nat) :
  (4 * Nat.iter t (lcg (Z.of_nat k)) i + 1) `mod` 2 ^ (Z.of_nat k + 2)
  = (5 ^ Z.of_nat t * (4 * i + 1)) `mod` 2 ^ (Z.of_nat k + 2).
Proof.
  induction t as [|t IH].
  { simpl. f_equal. lia. }
  rewrite Nat2Z.inj_succ, Z.pow_succ_r by lia. simpl.
  set (x := Nat.iter t (lcg (Z.of_nat k)) i) in *.
  unfold lcg at 1.
  assert (EM : 2 ^ (Z.of_nat k + 2) = 4 * 2 ^ Z.of_nat k).
  { rewrite Z.pow_add_r by lia. lia. }
  rewrite EM in *.
  rewrite <- Z.mul_mod_distr_l by lia.
  rewrite Z.add_mod_idemp_l by lia.
  replace (4 * (5 * x + 1) + 1) with (5 * (4 * x + 1)) by ring.
  rewrite <- Z.mul_mod_idemp_r, IH, Z.mul_mod_idemp_r by lia.
  f_equal. ring.
Qed.

Lemma pow5_mod2 (e : nat) : 5 ^ Z.of_nat e `mod` 2 = 1.
Proof.
  induction e as [|e IH]; [done|].
  rewrite Nat2Z.inj_succ, Z.pow_succ_r by lia.
  rewrite <- Z.mul_mod_idemp_r, IH by lia. done.
Qed.

Lemma lcg_orbit_inj (k : nat) (i : Z) (a b : nat) :
  (a < b)%nat → Z.of_nat b - Z.of_nat a < 2 ^ Z.of_nat k →
  Nat.iter a (lcg (Z.of_nat k)) i ≠ Nat.iter b (lcg (Z.of_nat k)) i.
Proof.
  intros Hab Hlt E.
  assert (Ha := lcg_closed k i a). assert (Hb := lcg_closed k i b).
  rewrite E, Hb in Ha. clear Hb E.
  set (M := 2 ^ (Z.of_nat k + 2)) in *.
  assert (HM : 0 < M) by (apply Z.pow_pos_nonneg; lia).
  assert (Hd : (M | (5 ^ Z.of_nat (b - a) - 1) * (5 ^ Z.of_nat a * (4 * i + 1)))).
  { replace ((5 ^ Z.of_nat (b - a) - 1) * (5 ^ Z.of_nat a * (4 * i + 1)))
      with (5 ^ Z.of_nat b * (4 * i + 1) - 5 ^ Z.of_nat a * (4 * i + 1)).
    - apply Z.mod_divide; [lia|]. rewrite Zminus_mod, Ha, Z.sub_diag. done.
    - replace (Z.of_nat b) with (Z.of_nat (b - a) + Z.of_nat a) by lia.
      rewrite Z.pow_add_r by lia. ring. }
  unfold M in Hd.
  replace (Z.of_nat k + 2) with (Z.of_nat (k + 2)) in Hd by lia.
  apply pow2_divide_odd in Hd.
  - replace (Z.of_nat (k + 2)) with (Z.of_nat k + 2) in Hd by lia.
    apply pow5_order in Hd. destruct Hd as [q Hq].
    assert (HP : 0 < 2 ^ Z.of_nat k) by (apply Z.pow_pos_nonneg; lia).
    assert (Hn : 0 < Z.of_nat (b - a) < 2 ^ Z.of_nat k) by lia.
    rewrite Hq in Hn. destruct (decide (q ≤ 0)); nia.
  - rewrite <- Z.mul_mod_idemp_l, pow5_mod2, Z.mul_1_l by lia.
    rewrite Z.add_comm. replace (4 * i) with (2 * i * 2) by ring.
    rewrite Z.mod_add by lia. done.
Qed.

Lemma lcg_range (k : nat) (i : Z) : 0 ≤ lcg (Z.of_nat k) i < 2 ^ Z.of_nat k.
Proof. unfold lcg. apply Z.mod_pos_bound. apply Z.pow_pos_nonneg; lia. Qed.

Lemma lcg_cover (k : nat) (i j : Z) :
  0 ≤ i < 2 ^ Z.of_nat k → 0 ≤ j < 2 ^ Z.of_nat k →
  ∃ t : nat, Z.of_nat t < 2 ^ Z.of_nat k ∧ Nat.iter t (lcg (Z.of_nat k)) i = j.
Proof.
  intros Hi Hj.
  set (N := Z.to_nat (2 ^ Z.of_nat k)).
  set (L := (λ t, Nat.iter t (lcg (Z.of_nat k)) i) <$> seq 0 N).
  assert (HL : NoDup L).
  { apply NoDup_fmap_2_strong; [|apply NoDup_seq].
    intros a b Ha%elem_of_seq Hb%elem_of_seq E.
    destruct (Nat.lt_trichotomy a b) as [Hab|[Hab|Hab]]; [|done|].
    - exfalso. apply (lcg_orbit_inj k i a b); [done| lia |done].
    - exfalso. apply (lcg_orbit_inj k i b a); [done| lia |done]. }
  assert (Hsub : L ⊆+ seqZ 0 (2 ^ Z.of_nat k)).
  { apply NoDup_submseteq; [done|].
    intros x (t & -> & Ht)%list_elem_of_fmap. apply elem_of_seqZ.
    destruct t as [|t]; [simpl; lia|]. simpl.
    assert (Hr := lcg_range k (Nat.iter t (lcg (Z.of_nat k)) i)). lia. }
  apply submseteq_length_Permutation in Hsub.
  - assert (Hin : j ∈ L) by (rewrite Hsub; apply elem_of_seqZ; lia).
    apply list_elem_of_fmap in Hin as (t & -> & Ht%elem_of_seq).
    exists t. split; [lia | done].
  - unfold L. rewrite length_fmap, length_seq, length_seqZ. lia.
Qed.

(** ** The set of CPython is a set *)

Section table.
Import cpython.
Implicit Types (T : list (option User)) (key u v : User) (i j n : nat).

Lemma scan_eq cmp T key i n :
  scan cmp T key i n
  = match T !! i with
    | None => Miss
    | Some None => Unused i
    | Some (Some startkey) =>
        if cmp && bool_decide (hash startkey = hash key)
               && bool_decide (id startkey = id key)
        then Active i
        else match n with
             | O => Miss
             | S n' => scan cmp T key (S i) n'
             end
    end.
Proof. by destruct n. Qed.

Lemma scan_Unused cmp T key i n j :
  scan cmp T key i n = Unused j → T !! j = Some None.
Proof.
  revert i. induction n as [|n IH]; intros i; rewrite scan_eq;
    destruct (T !! i) as [[s|]|] eqn:E; try done;
    try (intros [= <-]; done);
    destruct (cmp && _ && _); try done.
  apply IH.
Qed.

Lemma scan_Active cmp T key i n j :
  scan cmp T key i n = Active j →
  cmp = true ∧ ∃ u, T !! j = Some (Some u) ∧ id u = id key.
Proof.
  revert i. induction n as [|n IH]; intros i; rewrite scan_eq;
    destruct (T !! i) as [[s|]|] eqn:E; try done;
    destruct (cmp && _ && _) eqn:C; try done.
  1,2: intros [= <-]; apply andb_prop in C as [[-> _]%andb_prop C];
       apply bool_decide_eq_true in C; eauto.
  apply IH.
Qed.

Lemma scan_Miss cmp T key i n : scan cmp T key i n = Miss → T !! i ≠ Some None.
Proof. rewrite scan_eq. by destruct (T !! i) as [[s|]|]. Qed.

Lemma scan_insert cmp T key i n i0 v r :
  T !! i0 = Some None →
  scan cmp T key i n = r → r ≠ Unused i0 →
  scan cmp (<[i0 := Some v]> T) key i n = r.
Proof.
  intros H0. revert i. induction n as [|n IH]; intros i; rewrite !(scan_eq _ _ _ i);
    (destruct (decide (i = i0)) as [->|Hne];
      [rewrite H0; congruence | rewrite list_lookup_insert_ne by done]);
    destruct (T !! i) as [[s|]|]; try done;
    destruct (cmp && _ && _); try done.
  apply IH.
Qed.

Lemma hash_id key u : id u = id key → hash u = hash key.
Proof. unfold hash. by intros ->. Qed.

Lemma scan_insert_self T key i n i0 v :
  id v = id key →
  scan true T key i n = Unused i0 →
  scan true (<[i0 := Some v]> T) key i n = Active i0.
Proof.
  intros Hv. revert i. induction n as [|n IH]; intros i Hs;
    pose proof (scan_Unused _ _ _ _ _ _ Hs) as H0;
    rewrite scan_eq in Hs; rewrite scan_eq.
  all: destruct (decide (i = i0)) as [->|Hne];
    [ rewrite list_lookup_insert_eq by (by eapply lookup_lt_Some);
      rewrite (hash_id _ _ Hv), Hv, !bool_decide_eq_true_2 by done; done
    | rewrite list_lookup_insert_ne by done ].
  all: destruct (T !! i) as [[s|]|]; try done; try congruence;
    destruct (true && _ && _); try done.
  by apply IH.
Qed.

Lemma scan_id cmp T key key' i n :
  id key = id key' → scan cmp T key i n = scan cmp T key' i n.
Proof.
  intros Hk. revert i. induction n as [|n IH]; intros i; rewrite !(scan_eq _ _ _ i);
    destruct (T !! i) as [[s|]|]; try done;
    rewrite (hash_id _ _ Hk), Hk; try done.
  by rewrite IH.
Qed.

Lemma entries_elem T u : u ∈ entries T ↔ ∃ j, T !! j = Some (Some u).
Proof.
  unfold entries. rewrite list_elem_of_omap. split.
  - intros (e & He & ->). by apply list_elem_of_lookup in He.
  - intros (j & Hj). exists (Some u). split; [|done].
    apply list_elem_of_lookup. by exists j.
Qed.

Lemma scan_fresh T key i n :
  (∀ u, u ∈ entries T → id u ≠ id key) →
  scan true T key i n = scan false T key i n.
Proof.
  intros Hf. revert i. induction n as [|n IH]; intros i; rewrite !(scan_eq _ _ _ i);
    destruct (T !! i) as [[s|]|] eqn:E; try done;
    (assert (Hs : id s ≠ id key) by (apply Hf, entries_elem; eauto));
    rewrite (bool_decide_eq_false_2 (id s = id key)) by done;
    rewrite andb_false_r; simpl; try done.
Qed.

(** The probe loop. *)

Lemma probe_S r cmp T key (i p : Z) :
  probe (S r) cmp T key i p
  = match scan cmp T key (Z.to_nat i)
            (Z.to_nat (if bool_decide (i + LINEAR_PROBES ≤ mask T)
                       then LINEAR_PROBES else 0)) with
    | Miss => probe r cmp T key (next T (i, p)).1 (next T (i, p)).2
    | s => s
    end.
Proof. reflexivity. Qed.

Lemma mask_insert T i0 (e : option User) : mask (<[i0 := e]> T) = mask T.
Proof. unfold mask. by rewrite length_insert. Qed.

Lemma probe_Unused r cmp T key (i p : Z) j :
  probe r cmp T key i p = Unused j → T !! j = Some None.
Proof.
  revert i p. induction r as [|r IH]; intros i p; [done|].
  rewrite probe_S. destruct (scan _ _ _ _ _) eqn:Es; [| done | apply IH].
  intros [= <-]. by eapply scan_Unused.
Qed.

Lemma probe_Active r cmp T key (i p : Z) j :
  probe r cmp T key i p = Active j →
  cmp = true ∧ ∃ u, T !! j = Some (Some u) ∧ id u = id key.
Proof.
  revert i p. induction r as [|r IH]; intros i p; [done|].
  rewrite probe_S. destruct (scan _ _ _ _ _) eqn:Es; [done | | apply IH].
  intros [= <-]. by eapply scan_Active.
Qed.

Lemma probe_insert r cmp T key (i p : Z) i0 v res :
  T !! i0 = Some None →
  probe r cmp T key i p = res → res ≠ Unused i0 →
  probe r cmp (<[i0 := Some v]> T) key i p = res.
Proof.
  intros H0. revert i p. induction r as [|r IH]; intros i p; [done|].
  rewrite !probe_S, mask_insert. unfold next. rewrite mask_insert.
  destruct (scan cmp T _ _ _) eqn:Es.
  - intros <- Hne. by rewrite (scan_insert _ _ _ _ _ _ _ _ H0 Es).
  - intros <- Hne. by rewrite (scan_insert _ _ _ _ _ _ _ _ H0 Es).
  - intros Hp Hne. rewrite (scan_insert _ _ _ _ _ _ _ _ H0 Es) by done.
    by apply IH.
Qed.

Lemma probe_insert_self r T key (i p : Z) i0 v :
  id v = id key →
  probe r true T key i p = Unused i0 →
  probe r true (<[i0 := Some v]> T) key i p = Active i0.
Proof.
  intros Hv. revert i p. induction r as [|r IH]; intros i p; [done|].
  intros Hp. pose proof (probe_Unused _ _ _ _ _ _ _ Hp) as H0. revert Hp.
  rewrite !probe_S, mask_insert. unfold next. rewrite mask_insert.
  destruct (scan true T _ _ _) eqn:Es.
  - intros [= ->]. by rewrite (scan_insert_self _ _ _ _ _ _ Hv Es).
  - done.
  - intros Hp. rewrite (scan_insert _ _ _ _ _ _ _ _ H0 Es) by done.
    by apply IH.
Qed.

Lemma probe_id r cmp T key key' (i p : Z) :
  id key = id key' → probe r cmp T key i p = probe r cmp T key' i p.
Proof.
  intros Hk. revert i p. induction r as [|r IH]; intros i p; [done|].
  rewrite !probe_S, (scan_id _ _ _ _ _ _ Hk).
  destruct (scan _ _ _ _ _); (done || apply IH).
Qed.

Lemma probe_fresh r T key (i p : Z) :
  (∀ u, u ∈ entries T → id u ≠ id key) →
  probe r true T key i p = probe r false T key i p.
Proof.
  intros Hf. revert i p. induction r as [|r IH]; intros i p; [done|].
  rewrite !probe_S, (scan_fresh _ _ _ _ Hf).
  destruct (scan _ _ _ _ _); (done || apply IH).
Qed.

Lemma probe_Miss_visits r cmp T key (i p : Z) :
  probe r cmp T key i p = Miss →
  ∀ m : nat, (m < r)%nat →
    T !! Z.to_nat (Nat.iter m (next T) (i, p)).1 ≠ Some None.
Proof.
  revert i p. induction r as [|r IH]; intros i p Hp m Hm; [lia|].
  rewrite probe_S in Hp. destruct (scan _ _ _ _ _) eqn:Es; try done.
  destruct m as [|m]; [simpl; by eapply scan_Miss|].
  rewrite Nat.iter_succ_r.
  rewrite (surjective_pairing (next T (i, p))). apply IH; [done | lia].
Qed.

Lemma mask_ones T (k : nat) :
  Z.of_nat (length T) = 2 ^ Z.of_nat k → mask T = Z.ones (Z.of_nat k).
Proof. intros Hk. unfold mask. rewrite Hk, Z.ones_equiv. lia. Qed.

Lemma next_range T (k : nat) (s : Z * Z) :
  Z.of_nat (length T) = 2 ^ Z.of_nat k →
  0 ≤ (next T s).1 < 2 ^ Z.of_nat k.
Proof.
  intros Hk. unfold next. simpl. rewrite (mask_ones _ _ Hk), Z.land_ones by lia.
  apply Z.mod_pos_bound. apply Z.pow_pos_nonneg; lia.
Qed.

Lemma next_lcg T (k : nat) (s : Z * Z) :
  Z.of_nat (length T) = 2 ^ Z.of_nat k →
  s.2 ≫ PERTURB_SHIFT = 0 →
  next T s = (lcg (Z.of_nat k) s.1, 0).
Proof.
  intros Hk Hs. unfold next. rewrite Hs. f_equal.
  rewrite (mask_ones _ _ Hk), Z.land_ones by lia.
  unfold lcg. f_equal. lia.
Qed.

Lemma iter_next_lcg T (k : nat) (s : Z * Z) (t : nat) :
  Z.of_nat (length T) = 2 ^ Z.of_nat k →
  s.2 ≫ PERTURB_SHIFT = 0 →
  (Nat.iter t (next T) s).1 = Nat.iter t (lcg (Z.of_nat k)) s.1
  ∧ (Nat.iter t (next T) s).2 ≫ PERTURB_SHIFT = 0.
Proof.
  intros Hk Hs. induction t as [|t [IH1 IH2]]; [done|].
  rewrite !Nat.iter_succ, (next_lcg _ _ _ Hk IH2). simpl. by rewrite IH1.
Qed.

Lemma iter_next_perturb T (s : Z * Z) (m : nat) :
  (Nat.iter m (next T) s).2 = s.2 ≫ (PERTURB_SHIFT * Z.of_nat m).
Proof.
  induction m as [|m IH]; [by rewrite Z.mul_0_r, Z.shiftr_0_r|].
  rewrite Nat.iter_succ. unfold next at 1. simpl. rewrite IH. unfold PERTURB_SHIFT.
  rewrite Z.shiftr_shiftr by lia. f_equal. lia.
Qed.

Lemma lookkey_not_Miss cmp T key j :
  pow2 T → T !! j = Some None → lookkey cmp T key ≠ Miss.
Proof.
  intros [k Hk] Hj Hm. unfold lookkey in Hm.
  set (s0 := (Z.land (size_t (hash key)) (mask T), size_t (hash key))) in *.
  set (s12 := Nat.iter 12 (next T) s0).
  assert (Hp : s12.2 ≫ PERTURB_SHIFT = 0).
  { unfold s12. rewrite iter_next_perturb. unfold PERTURB_SHIFT, s0.
    cbn [snd]. rewrite Z.shiftr_shiftr by lia.
    rewrite Z.shiftr_div_pow2 by lia. apply Z.div_small.
    unfold size_t.
    assert (Hb := Z.mod_pos_bound (hash key) (2 ^ 64)). lia. }
  assert (Hr : 0 ≤ s12.1 < 2 ^ Z.of_nat k).
  { unfold s12. rewrite (Nat.iter_succ 11). by apply next_range. }
  assert (Hjk : 0 ≤ Z.of_nat j < 2 ^ Z.of_nat k).
  { apply lookup_lt_Some in Hj. lia. }
  destruct (lcg_cover k s12.1 (Z.of_nat j) Hr Hjk) as (t & Ht & Et).
  apply (probe_Miss_visits _ _ _ _ _ _ Hm (t + 12)%nat).
  - unfold rounds. lia.
  - rewrite Nat.iter_add. fold s0. fold s12.
    rewrite (proj1 (iter_next_lcg _ _ _ t Hk Hp)), Et, Nat2Z.id. done.
Qed.

(** The lookup. *)

Lemma lookkey_Unused cmp T key j : lookkey cmp T key = Unused j → T !! j = Some None.
Proof. apply probe_Unused. Qed.

Lemma lookkey_Active cmp T key j :
  lookkey cmp T key = Active j →
  cmp = true ∧ ∃ u, T !! j = Some (Some u) ∧ id u = id key.
Proof. apply probe_Active. Qed.

Lemma lookkey_insert cmp T key i0 v res :
  T !! i0 = Some None →
  lookkey cmp T key = res → res ≠ Unused i0 →
  lookkey cmp (<[i0 := Some v]> T) key = res.
Proof.
  unfold lookkey, rounds. rewrite length_insert, mask_insert. apply probe_insert.
Qed.

Lemma lookkey_insert_self T key i0 v :
  id v = id key →
  lookkey true T key = Unused i0 →
  lookkey true (<[i0 := Some v]> T) key = Active i0.
Proof.
  unfold lookkey, rounds. rewrite length_insert, mask_insert.
  apply probe_insert_self.
Qed.

Lemma lookkey_id cmp T key key' :
  id key = id key' → lookkey cmp T key = lookkey cmp T key'.
Proof.
  intros Hk. unfold lookkey. rewrite (hash_id key' key) by done.
  by apply probe_id.
Qed.

Lemma lookkey_fresh T key :
  (∀ u, u ∈ entries T → id u ≠ id key) →
  lookkey true T key = lookkey false T key.
Proof. apply probe_fresh. Qed.

(** The keys of a table. *)

Lemma entries_insert T i v :
  T !! i = Some None → entries (<[i := Some v]> T) ≡ₚ v :: entries T.
Proof.
  intros Hi. assert (Hlt := lookup_lt_Some _ _ _ Hi).
  rewrite insert_take_drop by done.
  rewrite <- (take_drop_middle T i None) at 3 by done.
  unfold entries. rewrite !omap_app. simpl.
  by rewrite Permutation_middle.
Qed.

Lemma entries_room T :
  (length (entries T) < length T)%nat → ∃ j, T !! j = Some None.
Proof.
  induction T as [|[u|] T IH]; simpl; intros Hl; [lia | | by exists 0%nat].
  destruct IH as [j Hj]; [unfold entries in *; simpl in Hl; lia|].
  by exists (S j).
Qed.

Lemma entries_replicate n : entries (replicate n None) = [].
Proof. by induction n. Qed.

Lemma reach_fresh T key i :
  reach T → lookkey true T key = Unused i →
  ∀ u, u ∈ entries T → id u ≠ id key.
Proof.
  intros Hr Hk u (j & Hj)%entries_elem E.
  apply Hr in Hj. rewrite (lookkey_id _ _ _ _ E) in Hj. congruence.
Qed.

Lemma reach_insert T key i :
  reach T → lookkey true T key = Unused i → reach (<[i := Some key]> T).
Proof.
  intros Hr Hk j u Hj.
  assert (H0 := lookkey_Unused _ _ _ _ Hk).
  destruct (decide (j = i)) as [->|Hne].
  - rewrite list_lookup_insert_eq in Hj by (by eapply lookup_lt_Some).
    injection Hj as <-. by apply lookkey_insert_self.
  - rewrite list_lookup_insert_ne in Hj by done.
    apply lookkey_insert; [done | by apply Hr | done].
Qed.

Lemma reach_replicate n : reach (replicate n None).
Proof. intros j u [Hj _]%lookup_replicate. done. Qed.

Lemma insert_fresh T key :
  pow2 T → reach T → (length (entries T) < length T)%nat →
  (∀ u, u ∈ entries T → id u ≠ id key) →
  ∃ i, lookkey true T key = Unused i ∧ lookkey false T key = Unused i.
Proof.
  intros Hp Hr [j Hj]%entries_room Hf.
  rewrite <- (lookkey_fresh _ _ Hf).
  destruct (lookkey true T key) as [i|i|] eqn:E.
  - by exists i.
  - apply lookkey_Active in E as (_ & u & Hu & Eu).
    exfalso. apply (Hf u); [apply entries_elem; eauto | done].
  - exfalso. by eapply lookkey_not_Miss.
Qed.

Lemma set_insert_clean_spec T key :
  pow2 T → reach T → (length (entries T) < length T)%nat →
  (∀ u, u ∈ entries T → id u ≠ id key) →
  length (set_insert_clean T key) = length T
  ∧ reach (set_insert_clean T key)
  ∧ entries (set_insert_clean T key) ≡ₚ key :: entries T.
Proof.
  intros Hp Hr Hl Hf.
  destruct (insert_fresh _ _ Hp Hr Hl Hf) as (i & Et & Ef).
  unfold set_insert_clean. rewrite Ef.
  split; [apply length_insert|]. split; [exact (reach_insert _ _ _ Hr Et)|].
  apply entries_insert. exact (lookkey_Unused _ _ _ _ Et).
Qed.

(** Resizing. *)

Lemma newsize_spec (turns : nat) : ∀ size minused : Z,
  (∃ k : nat, size = 2 ^ Z.of_nat k) →
  minused < size + Z.of_nat turns →
  minused < newsize turns size minused
  ∧ ∃ k : nat, newsize turns size minused = 2 ^ Z.of_nat k.
Proof.
  induction turns as [|turns IH]; intros size minused [k Hk] Hm; simpl.
  { split; [lia | by exists k]. }
  case_bool_decide as Hs; [| split; [lia | by exists k]].
  assert (0 < size) by (rewrite Hk; apply Z.pow_pos_nonneg; lia).
  rewrite Z.shiftl_mul_pow2 by lia. apply IH; [|lia].
  exists (S k). rewrite Nat2Z.inj_succ, Z.pow_succ_r by lia. lia.
Qed.

Lemma resize_fold (old : list (option User)) : ∀ T,
  pow2 T → reach T →
  NoDup (id <$> (entries T ++ entries old)) →
  (length (entries T) + length (entries old) < length T)%nat →
  let T' := foldl (λ t entry, from_option (set_insert_clean t) t entry) T old in
  length T' = length T ∧ reach T' ∧ entries T' ≡ₚ entries T ++ entries old.
Proof.
  induction old as [|[k|] old IH]; intros T Hp Hr Hnd Hl; simpl.
  - split; [done|]. split; [done|]. by rewrite app_nil_r.
  - change (entries (Some k :: old)) with (k :: entries old) in *.
    simpl in Hl.
    assert (Hf : ∀ u, u ∈ entries T → id u ≠ id k).
    { intros u Hu E. rewrite fmap_app in Hnd.
      apply NoDup_app in Hnd as (_ & Hd & _).
      apply (Hd (id u)); [by apply list_elem_of_fmap_2|].
      rewrite E. simpl. left. }
    assert (Hroom : (length (entries T) < length T)%nat) by lia.
    destruct (set_insert_clean_spec T k Hp Hr Hroom Hf) as (Hlen & Hr1 & Hp1).
    destruct (IH (set_insert_clean T k)) as (Hlen' & Hr' & Hp').
    + destruct Hp as [n Hn]. exists n. by rewrite Hlen.
    + done.
    + rewrite Hp1. simpl. rewrite fmap_app. simpl.
      rewrite fmap_app in Hnd. simpl in Hnd.
      by rewrite Permutation_middle.
    + rewrite Hlen. apply Permutation_length in Hp1. simpl in Hp1. lia.
    + split; [congruence|]. split; [done|].
      rewrite Hp', Hp1. simpl. apply Permutation_middle.
  - change (entries (None :: old)) with (entries old) in *.
    by apply IH.
Qed.

(** The set object. *)

Lemma inv_new : inv set_new.
Proof.
  unfold inv, set_new. simpl. split; [by exists 3%nat|].
  split; [apply (reach_replicate 8)|]. split; [constructor|]. done.
Qed.

Lemma set_add_entry_spec (so : setobject) key :
  inv so →
  inv (set_add_entry so key)
  ∧ ((id key ∈ id <$> entries (table so)
      ∧ entries (table (set_add_entry so key)) = entries (table so))
     ∨ ((id key ∉ id <$> entries (table so))
        ∧ entries (table (set_add_entry so key)) ≡ₚ key :: entries (table so))).
Proof.
  intros (Hp & Hr & Hnd & Hfill & Hload).
  unfold set_add_entry.
  destruct (lookkey true (table so) key) as [i|j|] eqn:El.
  - assert (H0 := lookkey_Unused _ _ _ _ El).
    assert (Hf : id key ∉ id <$> entries (table so)).
    { intros (u & E & Hu)%list_elem_of_fmap.
      by apply (reach_fresh _ _ _ Hr El u Hu). }
    assert (Hperm := entries_insert _ _ key H0).
    assert (Hlen := Permutation_length Hperm). simpl in Hlen.
    assert (Hnd1 : NoDup (id <$> entries (<[i := Some key]> (table so)))).
    { rewrite Hperm. simpl. by apply NoDup_cons. }
    cbn [table fill]. case_bool_decide as Hb.
    + split; [| right; by split].
      split; [|split; [|split; [|split]]]; cbn [table fill].
      * destruct Hp as [n Hn]. exists n. by rewrite length_insert.
      * by apply reach_insert.
      * done.
      * lia.
      * done.
    + set (f := fill so + 1) in *.
      set (minused := if bool_decide (50000 < f) then f * 2 else f * 4).
      assert (Hmin : 2 * f ≤ minused).
      { unfold minused. case_bool_decide; lia. }
      destruct (newsize_spec (Z.to_nat minused) PySet_MINSIZE minused)
        as (Hsz & n & Hn).
      { by exists 3%nat. }
      { unfold PySet_MINSIZE. lia. }
      set (size := newsize (Z.to_nat minused) PySet_MINSIZE minused) in *.
      destruct (resize_fold (<[i := Some key]> (table so))
                  (replicate (Z.to_nat size) None)) as (Hlen' & Hr' & Hp').
      { exists n. rewrite length_replicate, Z2Nat.id by lia. done. }
      { apply reach_replicate. }
      { by rewrite entries_replicate. }
      { rewrite entries_replicate, length_replicate. simpl. lia. }
      rewrite entries_replicate in Hp'. simpl in Hp'.
      unfold set_table_resize. cbn [table fill]. fold size.
      rewrite length_replicate in Hlen'.
      split; [| right; split; [done | by rewrite Hp']].
      split; [|split; [|split; [|split]]]; cbn [table fill].
      * exists n. rewrite Hlen', Z2Nat.id by lia. done.
      * done.
      * by rewrite Hp'.
      * rewrite Hp'. unfold f. lia.
      * unfold mask. rewrite Hlen', Z2Nat.id by lia. lia.
  - split; [done|]. left. split; [|done].
    apply lookkey_Active in El as (_ & u & Hu & E).
    rewrite <- E. apply list_elem_of_fmap_2, entries_elem. eauto.
  - exfalso.
    destruct (entries_room (table so)) as [j Hj].
    { unfold mask in Hload. lia. }
    by eapply lookkey_not_Miss.
Qed.

Lemma set_of_list_spec (l : list User) : ∀ so,
  inv so →
  inv (foldl set_add_entry so l)
  ∧ (∀ u, u ∈ entries (table (foldl set_add_entry so l)) →
          u ∈ entries (table so) ∨ u ∈ l)
  ∧ (∀ k : Z, k ∈ id <$> entries (table so) ∨ k ∈ id <$> l →
          k ∈ id <$> entries (table (foldl set_add_entry so l))).
Proof.
  induction l as [|key l IH]; intros so Hi; simpl.
  { split; [done|]. split; [by left|].
    intros k [?|H]; [done | by apply elem_of_nil in H]. }
  destruct (set_add_entry_spec so key Hi) as [Hi' Hc].
  destruct (IH _ Hi') as (Hi'' & Hel & Hkey).
  split; [done|]. split.
  - intros u Hu. apply Hel in Hu as [Hu|Hu]; [| right; by right].
    destruct Hc as [[_ E]|[_ E]]; rewrite E in Hu; [by left|].
    apply elem_of_cons in Hu as [->|Hu]; [right; left | by left].
  - intros k Hin. apply Hkey.
    destruct Hin as [Hin|Hin].
    + left. destruct Hc as [[_ E]|[_ E]]; rewrite E; [done|].
      simpl. by right.
    + apply elem_of_cons in Hin as [->|Hin]; [| by right].
      left. destruct Hc as [[Hk E]|[_ E]]; rewrite E; [done|]. simpl. left.
Qed.

Lemma CPython_laws : SetLaws CPython.
Proof.
  split; simpl; unfold cpython.set_iter, set_of_list; intros l.
  - by destruct (set_of_list_spec l set_new inv_new) as ((_ & _ & Hnd & _) & _).
  - intros u Hu. destruct (set_of_list_spec l set_new inv_new) as (_ & Hel & _).
    apply Hel in Hu as [Hu|Hu]; [|done]. simpl in Hu. by apply elem_of_nil in Hu.
  - intros u Hu. destruct (set_of_list_spec l set_new inv_new) as (_ & _ & Hkey).
    apply Hkey. right. by apply list_elem_of_fmap_2.
Qed.

End table.

(** ** More on the session-state filter *)

Lemma session_state_cases (self_value : value) (queryset : QuerySet) :
  (self_value = Some "incomplete"
   ∧ SessionStateFilter.queryset self_value queryset = filter incomplete queryset)
  ∨ (self_value = Some "complete"
     ∧ SessionStateFilter.queryset self_value queryset
       = filter (λ q, ¬ incomplete q) queryset)
  ∨ (self_value ≠ Some "incomplete" ∧ self_value ≠ Some "complete"
     ∧ SessionStateFilter.queryset self_value queryset = queryset).
Proof.
  unfold SessionStateFilter.queryset.
  destruct (value_eq self_value "incomplete") eqn:Ei.
  { left. apply value_eq_true in Ei. split; [done | apply filter_isnull_true]. }
  destruct (value_eq self_value "complete") eqn:Ec.
  { right; left. apply value_eq_true in Ec.
    split; [done | apply filter_isnull_false]. }
  right; right. apply value_eq_false in Ei. apply value_eq_false in Ec. done.
Qed.

Lemma filter_none {A : Type} (P : A → Prop) `{!∀ x, Decision (P x)} (l : list A) :
  (∀ x, ¬ P x) → filter P l = [].
Proof.
  intros HP. destruct (filter P l) as [|x l'] eqn:E; [done|].
  assert (Hx : x ∈ filter P l) by (rewrite E; left).
  apply list_elem_of_filter in Hx as [Hx _]. by apply HP in Hx.
Qed.

(** X1: the values the session-state filter offers in [lookups] are the
    values its [queryset] acts on: a selected string changes some
    collection exactly when it is the value of an offered option. *)
Theorem session_state_options_are_the_active_values (v : string) :
  (∃ label, (v, label) ∈ SessionStateFilter.lookups)
  ↔ (∃ queryset, SessionStateFilter.queryset (Some v) queryset ≠ queryset).
Proof.
  split.
  - intros [label Hl]. unfold SessionStateFilter.lookups in Hl.
    apply elem_of_cons in Hl as [[= -> ->]|Hl].
    { exists [log amy alice "k" 0 (Some 1)]. by vm_compute. }
    apply list_elem_of_singleton in Hl as [= -> ->].
    exists [log amy alice "k" 0 None]. by vm_compute.
  - intros [queryset Hq].
    destruct (session_state_cases (Some v) queryset)
      as [[[= ->] _]|[[[= ->] _]|(_ & _ & E)]].
    + exists "Incomplete". unfold SessionStateFilter.lookups. set_solver.
    + exists "Complete". unfold SessionStateFilter.lookups. set_solver.
    + contradiction.
Qed.

(** X2: whatever the selection, the session-state filter returns rows of
    the collection in the order of the collection: it adds no row, repeats
    none and moves none. *)
Theorem session_state_sublist (self_value : value) (queryset : QuerySet) :
  SessionStateFilter.queryset self_value queryset `sublist_of` queryset.
Proof.
  destruct (session_state_cases self_value queryset)
    as [[_ ->]|[[_ ->]|(_ & _ & ->)]]; [apply sublist_filter.. | done].
Qed.

(** X3: applying the session-state filter a second time with the same
    selection changes nothing. *)
Theorem session_state_idempotent (self_value : value) (queryset : QuerySet) :
  SessionStateFilter.queryset self_value
    (SessionStateFilter.queryset self_value queryset)
  = SessionStateFilter.queryset self_value queryset.
Proof.
  destruct (session_state_cases self_value queryset)
    as [[-> E]|[[-> E]|(Hi & Hc & E)]]; rewrite E.
  - destruct (session_state_cases (Some "incomplete") (filter incomplete queryset))
      as [[_ ->]|[[[=] _]|(? & _)]]; [|done].
    apply list_filter_filter_l. done.
  - destruct (session_state_cases (Some "complete")
                (filter (λ q, ¬ incomplete q) queryset))
      as [[[=] _]|[[_ ->]|(_ & ? & _)]]; [|done].
    apply list_filter_filter_l. done.
  - done.
Qed.

(** X4: the two selections exclude each other and split the collection:
    filtering by one and then by the other leaves no row, and the numbers
    of incomplete and of complete sessions add up to the number of rows. *)
Theorem session_state_split (queryset : QuerySet) :
  SessionStateFilter.queryset (Some "complete")
    (SessionStateFilter.queryset (Some "incomplete") queryset) = []
  ∧ SessionStateFilter.queryset (Some "incomplete")
      (SessionStateFilter.queryset (Some "complete") queryset) = []
  ∧ (length (SessionStateFilter.queryset (Some "incomplete") queryset)
     + length (SessionStateFilter.queryset (Some "complete") queryset)
     = length queryset)%nat.
Proof.
  assert (Ei : ∀ qs, SessionStateFilter.queryset (Some "incomplete") qs
                     = filter incomplete qs).
  { intros qs. unfold SessionStateFilter.queryset. simpl. apply filter_isnull_true. }
  assert (Ec : ∀ qs, SessionStateFilter.queryset (Some "complete") qs
                     = filter (λ q, ¬ incomplete q) qs).
  { intros qs. unfold SessionStateFilter.queryset. simpl. apply filter_isnull_false. }
  rewrite ?Ei, ?Ec, ?Ei, ?Ec. split; [| split].
  - etrans; [apply list_filter_filter|]. apply filter_none. tauto.
  - etrans; [apply list_filter_filter|]. apply filter_none. tauto.
  - rewrite <- length_app. apply Permutation_length, filter_app_complement.
Qed.

(** ** More on the friendly label *)

(** X5: the friendly label is the empty string only for a user whose full
    name and username are both empty; a user with a username always has a
    label to show. *)
Theorem friendly_name_empty (user : User) :
  friendly_name user = EmptyString
  ↔ get_full_name user = EmptyString ∧ username user = EmptyString.
Proof.
  unfold friendly_name.
  destruct (String.eqb_spec (get_full_name user) EmptyString) as [E|E]; simpl.
  - rewrite E. tauto.
  - tauto.
Qed.

(** ** More on the selection of the impersonator filter *)

Lemma impersonator_queryset_cases {R : Runtime} (self_value : value)
    (queryset : QuerySet) :
  ((self_value = None ∨ self_value = Some EmptyString)
   ∧ ImpersonatorFilter.queryset self_value queryset = Ok queryset)
  ∨ (∃ v, self_value = Some v ∧ v ≠ EmptyString
          ∧ ImpersonatorFilter.queryset self_value queryset
            = filter_impersonator_id v queryset).
Proof.
  destruct self_value as [v|]; [|left; split; [by left | done]].
  unfold ImpersonatorFilter.queryset.
  destruct (String.eqb_spec v EmptyString) as [->|E].
  - left. split; [by right | done].
  - right. by exists v.
Qed.

Lemma filter_impersonator_id_cases {R : Runtime} (v : string)
    (queryset : QuerySet) :
  (∃ n, int v = Some n ∧ key_range n = true
        ∧ ∀ qs, filter_impersonator_id v qs
                = Ok (filter (λ q, impersonator_id q = n) qs))
  ∨ (∃ e, ∀ qs, filter_impersonator_id v qs = Raise e)
  ∨ (∀ qs, filter_impersonator_id v qs = Ok []).
Proof.
  unfold filter_impersonator_id.
  destruct (int v) as [n|]; [| right; left; by exists ValueError].
  destruct (key_range n) eqn:Hk; [left; by exists n|].
  destruct out_of_range as [e|]; [right; left; by exists e | by right; right].
Qed.

(** X6: whenever the impersonator filter returns a collection, its rows
    are rows of the input in the order of the input, and under a selection
    that is neither absent nor empty they all have one and the same
    impersonator. *)
Theorem impersonator_queryset_sublist {R : Runtime} (self_value : value)
    (queryset rows : QuerySet) :
  ImpersonatorFilter.queryset self_value queryset = Ok rows →
  rows `sublist_of` queryset
  ∧ (self_value ≠ None → self_value ≠ Some EmptyString →
     ∀ q q', q ∈ rows → q' ∈ rows → impersonator_id q = impersonator_id q').
Proof.
  intros Hq.
  destruct (impersonator_queryset_cases self_value queryset)
    as [[Hv E]|(v & -> & Hv & E)]; rewrite E in Hq.
  - injection Hq as <-. split; [done|]. intros H1 H2. by destruct Hv.
  - destruct (filter_impersonator_id_cases v queryset)
      as [(n & _ & _ & En)|[[e Ee]|E0]].
    + rewrite En in Hq. injection Hq as <-. split; [apply sublist_filter|].
      intros _ _ q q' [Hn _]%list_elem_of_filter [Hn' _]%list_elem_of_filter.
      congruence.
    + by rewrite Ee in Hq.
    + rewrite E0 in Hq. injection Hq as <-. split; [apply sublist_nil_l|].
      intros _ _ q q' Hin. by apply elem_of_nil in Hin.
Qed.

Lemma impersonator_queryset_sublist_witness :
  [ log zed alice "k2" 200 None; log zed alice_smith "k4" 400 None ]
    `sublist_of` sample.
Proof.
  apply (impersonator_queryset_sublist (R:=CPython) (Some "1") sample).
  reflexivity.
Defined.

(** X7: whether the impersonator filter raises depends on the selection
    alone: a selection that fails on one collection fails on every
    collection, the empty one included. *)
Theorem impersonator_queryset_raise_by_value {R : Runtime} (self_value : value)
    (queryset queryset' : QuerySet) (e : exn) :
  ImpersonatorFilter.queryset self_value queryset = Raise e →
  ImpersonatorFilter.queryset self_value queryset' = Raise e
  ∧ ImpersonatorFilter.queryset self_value [] = Raise e.
Proof.
  intros Hq.
  assert (H : ∀ qs, ImpersonatorFilter.queryset self_value qs = Raise e).
  { intros qs.
    destruct (impersonator_queryset_cases self_value queryset)
      as [[_ E]|(v & -> & Hv & E)]; rewrite E in Hq; [done|].
    rewrite impersonator_queryset_value by done.
    destruct (filter_impersonator_id_cases v queryset)
      as [(n & _ & _ & En)|[[e' Ee]|E0]].
    - by rewrite En in Hq.
    - rewrite Ee in Hq |- *. done.
    - by rewrite E0 in Hq. }
  split; apply H.
Qed.

Lemma impersonator_queryset_raise_by_value_witness :
  ImpersonatorFilter.queryset (R:=CPython) (Some "1.5") [] = Raise ValueError.
Proof.
  apply (impersonator_queryset_raise_by_value (R:=CPython) (Some "1.5")
           sample sample ValueError).
  reflexivity.
Defined.

(** X8: the two list filters can be applied in either order: narrowing by
    session state and then by impersonator gives what narrowing by
    impersonator and then by session state gives, the raised error
    included. *)
Theorem filters_commute {R : Runtime} (session impersonator : value)
    (queryset : QuerySet) :
  ImpersonatorFilter.queryset impersonator
    (SessionStateFilter.queryset session queryset)
  = result_map (SessionStateFilter.queryset session)
      (ImpersonatorFilter.queryset impersonator queryset).
Proof.
  destruct (impersonator_queryset_cases impersonator queryset)
    as [[Hv E]|(v & -> & Hv & E)]; rewrite E.
  - destruct (impersonator_queryset_cases impersonator
               (SessionStateFilter.queryset session queryset))
      as [[_ E']|(v & -> & Hv' & _)]; [by rewrite E'|].
    by destruct Hv as [[=]|[= ->]].
  - rewrite impersonator_queryset_value by done.
    destruct (filter_impersonator_id_cases v queryset)
      as [(n & _ & _ & En)|[[e Ee]|E0]].
    2: { by rewrite !Ee. }
    2: { rewrite !E0. simpl. f_equal.
         by destruct (session_state_cases session [])
           as [[_ ->]|[[_ ->]|(_ & _ & ->)]]. }
    rewrite !En. simpl. f_equal.
    destruct (session_state_cases session queryset)
      as [[Hs0 Es]|[[Hs0 Es]|(Hs0 & Hs0' & Es)]];
    destruct (session_state_cases session
                (filter (λ q, impersonator_id q = n) queryset))
      as [[Hs Es']|[[Hs Es']|(Hs1 & Hs2 & Es')]];
      rewrite Es, Es'; try done; try congruence.
    + etrans; [apply list_filter_filter|]. symmetry.
      etrans; [apply list_filter_filter|]. apply list_filter_iff. tauto.
    + etrans; [apply list_filter_filter|]. symmetry.
      etrans; [apply list_filter_filter|]. apply list_filter_iff. tauto.
Qed.

(** X9: narrowing by the same impersonator a second time changes
    nothing. *)
Theorem impersonator_queryset_idempotent {R : Runtime} (self_value : value)
    (queryset rows : QuerySet) :
  ImpersonatorFilter.queryset self_value queryset = Ok rows →
  ImpersonatorFilter.queryset self_value rows = Ok rows.
Proof.
  intros Hq.
  destruct (impersonator_queryset_cases self_value queryset)
    as [[Hv E]|(v & -> & Hv & E)]; rewrite E in Hq.
  - destruct (impersonator_queryset_cases self_value rows)
      as [[_ E']|(v & -> & Hv' & _)]; [done|]. by destruct Hv as [[=]|[= ->]].
  - rewrite impersonator_queryset_value by done.
    destruct (filter_impersonator_id_cases v queryset)
      as [(n & _ & _ & En)|[[e Ee]|E0]].
    + rewrite En in Hq |- *. injection Hq as <-. f_equal.
      apply list_filter_filter_l. done.
    + by rewrite Ee in Hq.
    + rewrite E0 in Hq |- *. done.
Qed.

Lemma impersonator_queryset_idempotent_witness :
  ImpersonatorFilter.queryset (R:=CPython) (Some "3")
    [ log bob alice_smith "k3" 300 (Some 330) ]
  = Ok [ log bob alice_smith "k3" 300 (Some 330) ].
Proof.
  apply (impersonator_queryset_idempotent (R:=CPython) (Some "3") sample).
  reflexivity.
Defined.

(** ** More on the option list of the impersonator filter *)

Lemma lookups_cases {R : Runtime} (settings : Settings) (queryset : QuerySet) :
  (MAX_FILTER_SIZE settings
     < Z.of_nat (length (ImpersonatorFilter.impersonators queryset))
   ∧ ImpersonatorFilter.lookups settings queryset = [])
  ∨ (Z.of_nat (length (ImpersonatorFilter.impersonators queryset))
       ≤ MAX_FILTER_SIZE settings
     ∧ ImpersonatorFilter.lookups settings queryset
       = option_of <$> ImpersonatorFilter.impersonators queryset).
Proof.
  unfold ImpersonatorFilter.lookups. case_bool_decide; [left | right]; split;
    (done || lia).
Qed.

Lemma option_of_fst (l : list User) : (option_of <$> l).*1 = id <$> l.
Proof. by rewrite <- list_fmap_compose. Qed.

Lemma concat_filter_keys {A K : Type} `{EqDecision K} (f : A → K)
    (ks : list K) : ∀ l : list A,
  NoDup ks → (∀ x, x ∈ l → f x ∈ ks) →
  concat ((λ k, filter (λ x, f x = k) l) <$> ks) ≡ₚ l.
Proof.
  induction ks as [|k ks IH]; intros l Hnd Hl.
  - destruct l as [|x l]; [done|].
    specialize (Hl x (list_elem_of_here _ _)). by apply elem_of_nil in Hl.
  - apply NoDup_cons in Hnd as [Hk Hnd]. simpl.
    etrans; [| apply (filter_app_complement (λ x, f x = k) l)].
    apply Permutation_app_head.
    etrans; [| apply (IH (filter (λ x, ¬ f x = k) l) Hnd)].
    + apply reflexive_eq. f_equal. apply list_fmap_ext.
      intros i k' Hk'%list_elem_of_lookup_2.
      symmetry. etrans; [apply list_filter_filter|].
      apply list_filter_iff. intros x. split; [tauto|].
      intros ->. split; [done|]. by intros ->.
    + intros x [Hx Hin]%list_elem_of_filter.
      specialize (Hl x Hin). apply elem_of_cons in Hl as [?|?]; done.
Qed.

(** X10: on every interpreter and for every collection the option list has
    at most as many entries as the cap allows, and none when the cap is
    zero or negative. *)
Theorem lookups_at_most_cap {R : Runtime} (settings : Settings)
    (queryset : QuerySet) :
  Z.of_nat (length (ImpersonatorFilter.lookups settings queryset))
  ≤ Z.max 0 (MAX_FILTER_SIZE settings).
Proof.
  destruct (lookups_cases settings queryset) as [[_ ->]|[Hc ->]]; simpl; [lia|].
  rewrite length_fmap. lia.
Qed.

(** X11: [lookups] hands a record to [logger.debug] exactly when it hides
    the options: above the cap the one record carries the number of
    distinct impersonators and the cap, and the list is empty; at or below
    the cap nothing is logged. *)
Theorem lookups_log_when_hidden {R : Runtime} `{!SetLaws R}
    (settings : Settings) (queryset : QuerySet) :
  (MAX_FILTER_SIZE settings < Z.of_nat (distinct_count queryset) →
     ImpersonatorFilter.lookups settings queryset = []
     ∧ ImpersonatorFilter.lookups_log settings queryset
       = [Debug "Hiding admin list filter as number of impersonators exceeds MAX_FILTER_SIZE [%s]"
            [Z.of_nat (distinct_count queryset); MAX_FILTER_SIZE settings]])
  ∧ (Z.of_nat (distinct_count queryset) ≤ MAX_FILTER_SIZE settings →
     ImpersonatorFilter.lookups_log settings queryset = []).
Proof.
  unfold ImpersonatorFilter.lookups_log. rewrite impersonators_length.
  split; intros Hc.
  - split; [by apply lookups_hidden|]. by rewrite bool_decide_eq_true_2.
  - rewrite bool_decide_eq_false_2; [done | lia].
Qed.

Lemma lookups_log_when_hidden_witness :
  ImpersonatorFilter.lookups (R:=CPython) (settings_cap 2) sample = []
  ∧ ImpersonatorFilter.lookups_log (R:=CPython) (settings_cap 2) sample
    = [Debug "Hiding admin list filter as number of impersonators exceeds MAX_FILTER_SIZE [%s]"
         [3; 2]]
  ∧ ImpersonatorFilter.lookups_log (R:=CPython) (settings_cap 3) sample = [].
Proof.
  destruct (lookups_log_when_hidden (R:=CPython) (SetLaws0:=CPython_laws)
              (settings_cap 2) sample) as [H1 _].
  destruct (lookups_log_when_hidden (R:=CPython) (SetLaws0:=CPython_laws)
              (settings_cap 3) sample) as [_ H2].
  destruct H1 as [H1 H1']; [vm_compute; reflexivity|].
  split; [exact H1|]. split; [exact H1' | apply H2; vm_compute; discriminate].
Defined.



(** X13: the identities offered depend on which impersonators occur in
    the collection and on nothing else: two collections with the same
    impersonators, in whatever order and number of rows, get the same
    identities as options. *)
Theorem lookups_by_impersonators {R : Runtime} `{!SetLaws R}
    (settings : Settings) (queryset queryset' : QuerySet) :
  distinct_impersonators queryset = distinct_impersonators queryset' →
  (ImpersonatorFilter.lookups settings queryset).*1
  ≡ₚ (ImpersonatorFilter.lookups settings queryset').*1.
Proof.
  intros Hd.
  assert (Hc : distinct_count queryset = distinct_count queryset').
  { unfold distinct_count. by rewrite Hd. }
  destruct (decide (MAX_FILTER_SIZE settings
                    < Z.of_nat (distinct_count queryset))) as [Hlt|Hge].
  - rewrite !lookups_hidden by lia. done.
  - rewrite !lookups_shown by lia. rewrite !option_of_fst, !impersonators_perm.
    by rewrite Hd.
Qed.

Lemma lookups_by_impersonators_witness :
  (ImpersonatorFilter.lookups (R:=PyPy) settings_default sample).*1
  ≡ₚ (ImpersonatorFilter.lookups (R:=PyPy) settings_default
        (reverse sample ++ sample)).*1.
Proof.
  apply (lookups_by_impersonators (R:=PyPy) (SetLaws0:=PyPy_laws)).
  by vm_compute.
Defined.

(** X14: raising the cap never removes options: a list shown under one
    cap is shown unchanged under every larger cap. *)
Theorem lookups_cap_monotone {R : Runtime} (settings settings' : Settings)
    (queryset : QuerySet) :
  MAX_FILTER_SIZE settings ≤ MAX_FILTER_SIZE settings' →
  ImpersonatorFilter.lookups settings queryset ≠ [] →
  ImpersonatorFilter.lookups settings' queryset
  = ImpersonatorFilter.lookups settings queryset.
Proof.
  intros Hle Hne.
  destruct (lookups_cases settings queryset) as [[_ E]|[Hc E]]; [done|].
  destruct (lookups_cases settings' queryset) as [[Hc' _]|[_ E']]; [lia|].
  by rewrite E, E'.
Qed.

Lemma lookups_cap_monotone_witness :
  ImpersonatorFilter.lookups (R:=CPython) settings_default sample
  = ImpersonatorFilter.lookups (R:=CPython) (settings_cap 3) sample.
Proof.
  apply (lookups_cap_monotone (R:=CPython) (settings_cap 3) settings_default).
  - vm_compute. discriminate.
  - vm_compute. discriminate.
Defined.

(** X15: when rows that name the same impersonator carry the same user
    and the options are shown, the option list holds, for every row of the
    collection, the identity of its impersonator paired with the very
    label the column [impersonator_] shows for that row. *)
Theorem lookups_labels_match_column {R : Runtime} `{!SetLaws R}
    (settings : Settings) (queryset : QuerySet) :
  coherent queryset →
  Z.of_nat (distinct_count queryset) ≤ MAX_FILTER_SIZE settings →
  ∀ q, q ∈ queryset →
    (impersonator_id q, ImpersonationLogAdmin.impersonator_ q)
    ∈ ImpersonatorFilter.lookups settings queryset.
Proof.
  intros Hco Hc q Hq. rewrite lookups_shown by done.
  assert (Hk : id (impersonator q)
               ∈ id <$> ImpersonatorFilter.impersonators queryset).
  { unfold ImpersonatorFilter.impersonators. apply set_iter_key.
    apply list_elem_of_fmap_2. by apply order_by_elem. }
  apply list_elem_of_fmap in Hk as (u & Eu & Hu).
  destruct (impersonators_elem _ _ Hu) as (q' & Hq' & ->).
  apply list_elem_of_fmap. exists (impersonator q'). split; [|done].
  unfold option_of, ImpersonationLogAdmin.impersonator_, impersonator_id.
  by rewrite (Hco q q' Hq Hq' Eu).
Qed.

Lemma sample_coherent : coherent sample.
Proof.
  intros q q' Hq Hq' E. unfold sample in Hq, Hq'.
  set_unfold in Hq. set_unfold in Hq'.
  destruct_or!; subst; try done; by vm_compute in E.
Qed.

Lemma lookups_labels_match_column_witness :
  (1, "Zed Young")
  ∈ ImpersonatorFilter.lookups (R:=CPython) settings_default sample.
Proof.
  apply (lookups_labels_match_column (R:=CPython) (SetLaws0:=CPython_laws)
           settings_default sample sample_coherent
           ltac:(vm_compute; discriminate)
           (log zed alice "k2" 200 None)).
  unfold sample. set_solver.
Defined.

(** X16: when the options are shown they split the collection: the
    selection of an option returns the rows of that option, every row is
    among the rows of exactly one option, and the rows of all options
    taken together are the rows of the collection, each as often as it
    occurs. *)
Theorem lookups_partition {R : Runtime} `{!SetLaws R}
    (settings : Settings) (queryset : QuerySet) :
  Z.of_nat (distinct_count queryset) ≤ MAX_FILTER_SIZE settings →
  (∀ o v, o ∈ ImpersonatorFilter.lookups settings queryset →
     v ≠ EmptyString → int v = Some o.1 →
     ImpersonatorFilter.queryset (Some v) queryset = Ok (rows_of queryset o))
  ∧ concat (rows_of queryset <$> ImpersonatorFilter.lookups settings queryset)
    ≡ₚ queryset.
Proof.
  intros Hc. split.
  { intros o v Ho Hv Hi. rewrite impersonator_queryset_value by done.
    apply filter_impersonator_id_key; [done|].
    rewrite lookups_shown in Ho by done.
    apply list_elem_of_fmap in Ho as (u & -> & Hu). apply key_range_id. }
  rewrite lookups_shown by done.
  etrans; [| apply (concat_filter_keys impersonator_id
                      (id <$> ImpersonatorFilter.impersonators queryset))].
  - rewrite <- !list_fmap_compose. done.
  - apply impersonators_NoDup.
  - intros q Hq. unfold ImpersonatorFilter.impersonators, impersonator_id.
    apply set_iter_key, list_elem_of_fmap_2. by apply order_by_elem.
Qed.

Lemma lookups_partition_witness :
  concat (rows_of sample
            <$> ImpersonatorFilter.lookups (R:=CPython) settings_default sample)
  ≡ₚ sample.
Proof.
  apply (lookups_partition (R:=CPython) (SetLaws0:=CPython_laws)).
  vm_compute. discriminate.
Defined.
